(** * Account workflow of the AI VideoGen demo site (src/app.py)

    A shallow embedding of the Flask handlers [register], [login],
    [logout], [confirm_email] and [contact], of the mail helpers they
    call, and of the [User] table they read and write.

    The table is a list of rows in insertion order; a query
    [filter_by(...).first()] is the first matching row of that list, and
    an attribute assignment followed by [db.session.commit()] is an
    in-place update of that row.  The libraries the handlers call
    (email_validator, flask_bcrypt, url_for, the MAIL_* environment) are
    the fields of the class [Collaborators]; what the outside world
    decides during one request (the token drawn by
    [secrets.token_urlsafe], the salt drawn by bcrypt, whether the SMTP
    conversation raises) is a [Chance] given with the request. *)

From Stdlib Require Import ZArith Ascii String List Bool Lia.
From stdpp Require Import base decidable option numbers strings list.

Local Open Scope string_scope.
Local Open Scope list_scope.
Local Open Scope Z_scope.

(** ** The persisted entity: class [User] *)

Record User := mkUser {
  id : Z;
  company_name : option string;
  email : string;
  role : option string;
  password_hash : string;
  is_confirmed : bool;
  confirm_token : option string
}.

(** [user.is_confirmed = True; user.confirm_token = None] *)
Definition mark_confirmed (u : User) : User :=
  {| id := id u;
     company_name := company_name u;
     email := email u;
     role := role u;
     password_hash := password_hash u;
     is_confirmed := true;
     confirm_token := None |}.

(** ** Outbound mail and what a request leaves behind *)

Record Mail := mkMail {
  mail_from : string;
  mail_to : string;
  mail_subject : string;
  mail_body : string
}.

(** Outcome of the [with smtplib.SMTP(...)] block of [send_email]. *)
Inductive SmtpOutcome :=
| Delivered
| Raised (e : string).

(** What the environment decides while one request is served. *)
Record Chance := mkChance {
  token_urlsafe : string;
  gensalt : string;
  smtp : SmtpOutcome
}.

Record World := mkWorld {
  db : list User;           (* rows of the user table, oldest first *)
  session : option Z;       (* session["user_id"], when the key is set *)
  outbox : list Mail;       (* messages the SMTP relay accepted *)
  stdout : list string      (* lines written by print *)
}.

Definition init : World :=
  {| db := []; session := None; outbox := []; stdout := [] |}.

Definition with_db (rows : list User) (w : World) : World :=
  {| db := rows; session := session w; outbox := outbox w; stdout := stdout w |}.

Definition with_session (s : option Z) (w : World) : World :=
  {| db := db w; session := s; outbox := outbox w; stdout := stdout w |}.

Definition print (line : string) (w : World) : World :=
  {| db := db w; session := session w; outbox := outbox w;
     stdout := stdout w ++ [line] |}.

Definition deliver (m : Mail) (w : World) : World :=
  {| db := db w; session := session w; outbox := outbox w ++ [m];
     stdout := stdout w |}.

(** ** Responses: the flashed message and the redirect target *)

Inductive Error :=
| ValidationError
| PasswordMismatch
| InvalidEmail
| DuplicateAccount
| InvalidOrExpiredToken
| InvalidCredentials
| EmailNotConfirmed.

Inductive Result :=
| Success
| Failure (e : Error).

(** A handler answers with a flashed message and a redirect.  [flash] keeps
    the message in the cookie session until the next page shows it; here it
    is part of the response, and the [session] of a [World] is the
    [user_id] key alone.
    [outcome] names the return statement that was taken: the source has one
    message per error, and the names are those of the specification. *)
Record Response := mkResponse {
  outcome : Result;
  flashed : string * string;   (* flash(message, category) *)
  location : string            (* redirect(...) *)
}.

Definition flash_error (e : Error) (message : string) (target : string) : Response :=
  {| outcome := Failure e; flashed := (message, "error"); location := target |}.

Definition flash_success (message : string) (target : string) : Response :=
  {| outcome := Success; flashed := (message, "success"); location := target |}.

(** [url_for("index")] *)
Definition url_for_index : string := "/".

(** ** Python values of [request.form.get] *)

(** [not x] for a form field: a missing key and the empty string are falsy. *)
Definition py_not (x : option string) : bool :=
  match x with
  | None => true
  | Some s => bool_decide (s = "")
  end.

(** The string behind a field that has passed its [not x] test. *)
Definition str (x : option string) : string := default "" x.

(** ** Queries on the table *)

(** [User.query.filter_by(email=email).first()] *)
Definition find_by_email (e : string) (rows : list User) : option (nat * User) :=
  list_find (λ u, email u = e) rows.

(** [User.query.filter_by(confirm_token=token).first()] *)
Definition find_by_token (t : string) (rows : list User) : option (nat * User) :=
  list_find (λ u, confirm_token u = Some t) rows.

(** [User.query.get(ident)]: the row with that primary key. *)
Definition get (ident : Z) (rows : list User) : option User :=
  snd <$> list_find (λ u, id u = ident) rows.

(** The integer primary key given to the next inserted row. *)
Definition next_id (rows : list User) : Z :=
  foldr Z.max 0 (id <$> rows) + 1.

(** ** What the handlers call but do not define *)

Class Collaborators := {
  (** [validate_email(email)] returns normally ([true]) or raises
      [EmailNotValidError] ([false]). *)
  validate_email : string → bool;
  (** [bcrypt.generate_password_hash(password).decode("utf-8")], given the
      salt bcrypt drew. *)
  generate_password_hash : string → string → string;
  (** [bcrypt.check_password_hash(pw_hash, password)] *)
  check_password_hash : string → string → bool;
  (** [url_for("confirm_email", token=token, _external=True)] *)
  url_for_confirm_email : string → string;
  (** [os.getenv("MAIL_USERNAME")] and [os.getenv("MAIL_PASSWORD")] *)
  MAIL_USERNAME : option string;
  MAIL_PASSWORD : option string
}.

Section Handlers.

Context {env : Collaborators}.

(** *** E-mail küldés *)

Definition send_email (to_email subject body : string) (o : SmtpOutcome)
    (w : World) : World :=
  if py_not MAIL_USERNAME || py_not MAIL_PASSWORD then
    print "FIGYELEM: Nincs beállítva MAIL_USERNAME vagy MAIL_PASSWORD" w
  else
    let msg := {| mail_from := str MAIL_USERNAME; mail_to := to_email;
                  mail_subject := subject; mail_body := body |} in
    match o with
    | Delivered => print ("E-mail elküldve: " +:+ to_email) (deliver msg w)
    | Raised e => print ("Hiba az e-mail küldésekor: " +:+ e) w
    end.

Definition send_confirmation_email (to_email token : string) (o : SmtpOutcome)
    (w : World) : World :=
  let confirm_url := url_for_confirm_email token in
  let subject := "AI VideoGen – E-mail megerősítés" in
  let body := "
Szia!

Köszönjük a regisztrációdat az AI VideoGen demóhoz.

Kérlek, erősítsd meg az e-mail címedet az alábbi linkre kattintva:

" +:+ confirm_url +:+ "

Ha nem te regisztráltál, egyszerűen hagyd figyelmen kívül ezt az üzenetet.

Üdv,
AI VideoGen
" in
  send_email to_email subject body o w.

Definition send_contact_email (name email subject_line message : string)
    (o : SmtpOutcome) (w : World) : World :=
  let subject := "AI VideoGen – új kapcsolatfelvétel: " +:+ subject_line in
  let body := "
Név: " +:+ name +:+ "
E-mail: " +:+ email +:+ "

Üzenet:
" +:+ message +:+ "
" in
  send_email (str MAIL_USERNAME) subject body o w.

(** *** Útvonalak *)

(** The arguments [index] hands to the template: [logged_in] and
    [user_email]. *)
Definition index (w : World) : bool * option string :=
  match session w with
  | None => (false, None)
  | Some user_id =>
      match get user_id (db w) with
      | Some user => (true, Some (email user))
      | None => (true, None)
      end
  end.

Definition register (name email role password password2 : option string)
    (c : Chance) (w : World) : World * Response :=
  if py_not email || py_not password || py_not password2 then
    (w, flash_error ValidationError "Minden kötelező mezőt tölts ki!"
          (url_for_index +:+ "#auth"))
  else if bool_decide (password ≠ password2) then
    (w, flash_error PasswordMismatch "A két jelszó nem egyezik!"
          (url_for_index +:+ "#auth"))
  else if negb (validate_email (str email)) then
    (w, flash_error InvalidEmail "Érvénytelen e-mail cím."
          (url_for_index +:+ "#auth"))
  else
    match find_by_email (str email) (db w) with
    | Some _ =>
        (w, flash_error DuplicateAccount
              "Ezzel az e-mail címmel már létezik fiók."
              (url_for_index +:+ "#auth"))
    | None =>
        let pw_hash := generate_password_hash (str password) (gensalt c) in
        let token := token_urlsafe c in
        let user := {| id := next_id (db w);
                       company_name := name;
                       email := str email;
                       role := role;
                       password_hash := pw_hash;
                       is_confirmed := false;
                       confirm_token := Some token |} in
        let w := with_db (db w ++ [user]) w in
        let w := send_confirmation_email (str email) token (smtp c) w in
        (w, flash_success
              "Sikeres regisztráció! Kérlek, erősítsd meg az e-mailedet."
              (url_for_index +:+ "#auth"))
    end.

Definition login (email password : option string) (w : World)
    : World * Response :=
  if py_not email || py_not password then
    (w, flash_error ValidationError
          "Add meg az e-mail címedet és a jelszavadat!"
          (url_for_index +:+ "#auth"))
  else
    match find_by_email (str email) (db w) with
    | None =>
        (w, flash_error InvalidCredentials "Hibás e-mail vagy jelszó."
              (url_for_index +:+ "#auth"))
    | Some (_, user) =>
        if negb (check_password_hash (password_hash user) (str password)) then
          (w, flash_error InvalidCredentials "Hibás e-mail vagy jelszó."
                (url_for_index +:+ "#auth"))
        else if negb (is_confirmed user) then
          (w, flash_error EmailNotConfirmed
                "Kérlek, először erősítsd meg az e-mail címedet!"
                (url_for_index +:+ "#auth"))
        else
          (with_session (Some (id user)) w,
           flash_success "Sikeres belépés!" url_for_index)
    end.

Definition logout (w : World) : World * Response :=
  (with_session None w, flash_success "Kijelentkeztél." url_for_index).

Definition confirm_email (token : string) (w : World) : World * Response :=
  match find_by_token token (db w) with
  | None =>
      (w, flash_error InvalidOrExpiredToken
            "Érvénytelen vagy lejárt megerősítő link." url_for_index)
  | Some (i, user) =>
      (with_db (<[i := mark_confirmed user]> (db w)) w,
       flash_success
         "Sikeresen megerősítetted az e-mail címed! Most már beléphetsz."
         (url_for_index +:+ "#auth"))
  end.

Definition contact (name email subject_line message : option string)
    (c : Chance) (w : World) : World * Response :=
  if py_not name || py_not email || py_not subject_line || py_not message then
    (w, flash_error ValidationError
          "Kérlek, tölts ki minden mezőt a kapcsolatfelvételnél!"
          (url_for_index +:+ "#contact"))
  else if negb (validate_email (str email)) then
    (w, flash_error InvalidEmail
          "Érvénytelen e-mail cím a kapcsolatfelvételnél."
          (url_for_index +:+ "#contact"))
  else
    let w := send_contact_email (str name) (str email) (str subject_line)
               (str message) (smtp c) w in
    (w, flash_success "Köszönjük az üzeneted, hamarosan jelentkezünk!"
          (url_for_index +:+ "#contact")).

(** *** The public operations as one step function *)

Inductive Request :=
| Register (name email role password password2 : option string)
| Login (email password : option string)
| Logout
| ConfirmEmail (token : string)
| SubmitContact (name email subject message : option string).

Definition handle (r : Request) (c : Chance) (w : World) : World * Response :=
  match r with
  | Register name email role password password2 =>
      register name email role password password2 c w
  | Login email password => login email password w
  | Logout => logout w
  | ConfirmEmail token => confirm_email token w
  | SubmitContact name email subject message =>
      contact name email subject message c w
  end.

(** Worlds that the handlers produce from an empty table. *)
Inductive reachable : World → Prop :=
| reachable_init : reachable init
| reachable_step w r c : reachable w → reachable (handle r c w).1.

End Handlers.

(** ** Vocabulary of the properties *)

(** The two shapes an account may have: unconfirmed with a token, or
    confirmed without one. *)
Definition unconfirmed_shape (u : User) : Prop :=
  is_confirmed u = false ∧ confirm_token u ≠ None.

Definition confirmed_shape (u : User) : Prop :=
  is_confirmed u = true ∧ confirm_token u = None.

Definition well_shaped (u : User) : Prop :=
  unconfirmed_shape u ∨ confirmed_shape u.

(** A form field that fails the handlers' [not x] test. *)
Definition empty_field (x : option string) : Prop := x = None ∨ x = Some "".

(** The accounts stored under an e-mail address, compared as raw strings. *)
Definition accounts_for (e : string) (rows : list User) : list User :=
  filter (λ u, email u = e) rows.

(** The accounts that currently hold a confirmation token. *)
Definition holders (t : string) (rows : list User) : list User :=
  filter (λ u, confirm_token u = Some t) rows.

(** No confirmation token is held by two rows at once. *)
Definition tokens_distinct (rows : list User) : Prop :=
  ∀ i j u v t,
    rows !! i = Some u → rows !! j = Some v →
    confirm_token u = Some t → confirm_token v = Some t → i = j.

(** Closes a goal [¬ empty_field (Some s)] for a literal, non-empty [s]. *)
Ltac present := intros [?|?]; congruence.

(** ASCII lower-casing, to speak of addresses that differ only in case. *)
Definition lower_ascii (a : Ascii.ascii) : Ascii.ascii :=
  let n := Ascii.nat_of_ascii a in
  if ((65 <=? n)%nat && (n <=? 90)%nat)%bool then Ascii.ascii_of_nat (n + 32) else a.

Fixpoint lower (s : string) : string :=
  match s with
  | EmptyString => EmptyString
  | String a r => String (lower_ascii a) (lower r)
  end.

Section Runs.

Context {env : Collaborators}.

(** A sequence of requests, each with what the environment decided for it. *)
Fixpoint run (steps : list (Request * Chance)) (w : World) : World :=
  match steps with
  | [] => w
  | (r, c) :: rest => run rest (handle r c w).1
  end.

(** Worlds reached when [secrets.token_urlsafe] never returns a token that
    some row still holds. *)
Inductive reachable_fresh : World → Prop :=
| reachable_fresh_init : reachable_fresh init
| reachable_fresh_step w r c :
    reachable_fresh w →
    (∀ u, u ∈ db w → confirm_token u ≠ Some (token_urlsafe c)) →
    reachable_fresh (handle r c w).1.

(** The row [register] inserts once every check has passed. *)
Definition new_row (name email role password : option string) (c : Chance)
    (rows : list User) : User :=
  {| id := next_id rows; company_name := name; email := str email; role := role;
     password_hash := generate_password_hash (str password) (gensalt c);
     is_confirmed := false; confirm_token := Some (token_urlsafe c) |}.

(** What one request can do to the table: nothing, append one unconfirmed
    row under an address no row has, or confirm the first holder of a token. *)
Inductive table_step (c : Chance) (rows : list User) : list User → Prop :=
| table_same : table_step c rows rows
| table_insert u :
    find_by_email (email u) rows = None →
    id u = next_id rows →
    is_confirmed u = false →
    confirm_token u = Some (token_urlsafe c) →
    table_step c rows (rows ++ [u])
| table_confirm token i u :
    find_by_token token rows = Some (i, u) →
    table_step c rows (<[i := mark_confirmed u]> rows).

End Runs.

(** ** A small instance of the collaborators, to run the handlers on *)

Module Demo.

Fixpoint has_at (s : string) : bool :=
  match s with
  | EmptyString => false
  | String a r => if Ascii.eqb a "@"%char then true else has_at r
  end.

Fixpoint after_dollar (s : string) : string :=
  match s with
  | EmptyString => EmptyString
  | String a r => if Ascii.eqb a "$"%char then r else after_dollar r
  end.

Definition collaborators : Collaborators :=
  {| validate_email := has_at;
     generate_password_hash := λ password salt, salt +:+ "$" +:+ password;
     check_password_hash := λ pw_hash password,
       bool_decide (after_dollar pw_hash = password);
     url_for_confirm_email := λ token, "http://localhost:5000/confirm/" +:+ token;
     MAIL_USERNAME := Some "operator@example.com";
     MAIL_PASSWORD := Some "app-password" |}.

(** The same site started without [MAIL_PASSWORD] in its environment. *)
Definition unconfigured : Collaborators :=
  {| validate_email := has_at;
     generate_password_hash := λ password salt, salt +:+ "$" +:+ password;
     check_password_hash := λ pw_hash password,
       bool_decide (after_dollar pw_hash = password);
     url_for_confirm_email := λ token, "http://localhost:5000/confirm/" +:+ token;
     MAIL_USERNAME := Some "operator@example.com";
     MAIL_PASSWORD := None |}.

Definition chance (token : string) (o : SmtpOutcome) : Chance :=
  {| token_urlsafe := token; gensalt := "salt"; smtp := o |}.

Definition alice : User :=
  {| id := 1; company_name := Some "ACME"; email := "alice@example.com";
     role := Some "cto"; password_hash := "salt$secret";
     is_confirmed := false; confirm_token := Some "tok-alice" |}.

Definition bob : User :=
  {| id := 2; company_name := None; email := "bob@example.com";
     role := None; password_hash := "salt$hunter2";
     is_confirmed := false; confirm_token := Some "tok-bob" |}.

Definition world (rows : list User) : World :=
  {| db := rows; session := None; outbox := []; stdout := [] |}.

(** Alice registers, her mail is delivered, and she follows the link. *)
Definition register_alice : Request :=
  Register (Some "ACME") (Some "alice@example.com") (Some "cto")
    (Some "secret") (Some "secret").

Definition registered : World :=
  (handle (env := collaborators) register_alice (chance "tok-alice" Delivered)
     init).1.

Definition confirmed : World :=
  (handle (env := collaborators) (ConfirmEmail "tok-alice")
     (chance "tok-unused" Delivered) registered).1.

End Demo.

(** * Properties *)

Section Properties.
Context {env : Collaborators}.

Lemma send_email_db to_email subject body o w :
  db (send_email to_email subject body o w) = db w.
Proof. unfold send_email. destruct (_ || _); [done|]. by destruct o. Qed.

Lemma send_email_session to_email subject body o w :
  session (send_email to_email subject body o w) = session w.
Proof. unfold send_email. destruct (_ || _); [done|]. by destruct o. Qed.

Lemma register_cases name email role password password2 c w :
  let out := register name email role password password2 c w in
  (out.1 = w ∧ ∃ e, outcome out.2 = Failure e)
  ∨ (find_by_email (str email) (db w) = None
     ∧ db out.1 = db w ++ [new_row name email role password c (db w)]
     ∧ session out.1 = session w
     ∧ outcome out.2 = Success).
Proof.
  unfold register; cbn zeta.
  destruct (_ || _); [left; eauto|].
  case_bool_decide; [left; eauto|].
  destruct (negb _); [left; eauto|].
  destruct (find_by_email _ _) as [?|] eqn:Hfind; [left; eauto|].
  right. cbn [fst snd]. unfold send_confirmation_email.
  rewrite send_email_db, send_email_session. done.
Qed.

Lemma confirm_email_cases token w :
  let out := confirm_email token w in
  (find_by_token token (db w) = None ∧ out.1 = w
   ∧ outcome out.2 = Failure InvalidOrExpiredToken)
  ∨ (∃ i u, find_by_token token (db w) = Some (i, u)
       ∧ out.1 = with_db (<[i := mark_confirmed u]> (db w)) w
       ∧ outcome out.2 = Success).
Proof.
  unfold confirm_email; cbn zeta.
  destruct (find_by_token _ _) as [[i u]|]; [right; eauto|left; eauto].
Qed.

Lemma login_db email password w : db (login email password w).1 = db w.
Proof.
  unfold login. destruct (_ || _); [done|].
  destruct (find_by_email _ _) as [[? u]|]; [|done].
  destruct (negb _); [done|]. by destruct (negb _).
Qed.

Lemma contact_db name email subject message c w :
  db (contact name email subject message c w).1 = db w.
Proof.
  unfold contact. destruct (_ || _); [done|]. destruct (negb _); [done|].
  cbn. unfold send_contact_email. by rewrite send_email_db.
Qed.

Lemma handle_table_step r c w : table_step c (db w) (db (handle r c w).1).
Proof.
  destruct r as [name email role password password2|email password| |token
                |name email subject message]; cbn [handle].
  - destruct (register_cases name email role password password2 c w)
      as [[-> _]|(Hfree & -> & _)]; [constructor|].
    by apply table_insert.
  - rewrite login_db. constructor.
  - constructor.
  - destruct (confirm_email_cases token w) as [(_ & -> & _)|(i & u & Hf & -> & _)];
      [constructor|]. by eapply table_confirm.
  - rewrite contact_db. constructor.
Qed.

Lemma shapes_exclusive u : ¬ (unconfirmed_shape u ∧ confirmed_shape u).
Proof. intros [[Hf _] [Ht _]]. congruence. Qed.

Lemma mark_confirmed_shape u : confirmed_shape (mark_confirmed u).
Proof. by split. Qed.

Lemma table_step_well_shaped c rows rows' :
  table_step c rows rows' → Forall well_shaped rows → Forall well_shaped rows'.
Proof.
  intros Hstep Hall. destruct Hstep as [|u _ _ Hconf Htok|token i u _]; [done|..].
  - apply Forall_app. split; [done|]. apply Forall_singleton. left. split; [done|].
    by rewrite Htok.
  - apply Forall_insert; [done|]. right. apply mark_confirmed_shape.
Qed.

Lemma reachable_well_shaped w : reachable w → Forall well_shaped (db w).
Proof.
  induction 1 as [|w r c _ IH]; [constructor|].
  by eapply table_step_well_shaped; [apply handle_table_step|].
Qed.

(** C1: every account of a world reached from the empty table through
    Register, ConfirmEmail, Login, Logout and SubmitContact has exactly one
    of the two shapes: not confirmed and holding a token, or confirmed and
    holding none. *)
Theorem account_shape_invariant w u :
  reachable w → u ∈ db w →
  (unconfirmed_shape u ∨ confirmed_shape u)
  ∧ ¬ (unconfirmed_shape u ∧ confirmed_shape u).
Proof.
  intros Hreach Hin. split; [|apply shapes_exclusive].
  pose proof (reachable_well_shaped w Hreach) as Hall.
  rewrite Forall_forall in Hall. by apply Hall.
Qed.

(** Row-wise effect of one table step on rows that were already there. *)
Lemma table_step_lookup c rows rows' i u :
  table_step c rows rows' → rows !! i = Some u →
  rows' !! i = Some u ∨ rows' !! i = Some (mark_confirmed u).
Proof.
  intros Hstep Hi. destruct Hstep as [|v _ _ _ _|token j v Hfind]; [by left|..].
  - left. by apply lookup_app_l_Some.
  - destruct (decide (j = i)) as [->|Hne].
    + right. apply list_find_Some in Hfind as (Hj & _).
      rewrite Hi in Hj. injection Hj as ->.
      apply list_lookup_insert_eq. by eapply lookup_lt_Some.
    + left. by rewrite list_lookup_insert_ne.
Qed.

Lemma table_step_new_row c rows rows' i u :
  table_step c rows rows' → rows !! i = None → rows' !! i = Some u →
  is_confirmed u = false ∧ confirm_token u = Some (token_urlsafe c)
  ∧ rows' = rows ++ [u].
Proof.
  intros Hstep Hnone Hi. destruct Hstep as [|v _ _ Hc Ht|token j v Hfind].
  - congruence.
  - apply lookup_app_Some in Hi as [Hi|[Hge Hi]]; [congruence|].
    apply list_lookup_singleton_Some in Hi as [_ ->]. done.
  - apply lookup_ge_None in Hnone.
    apply lookup_lt_Some in Hi. rewrite length_insert in Hi. lia.
Qed.

Lemma run_confirmed_stays steps : ∀ w i u,
  db w !! i = Some u → is_confirmed u = true →
  ∃ u', db (run steps w) !! i = Some u' ∧ id u' = id u ∧ is_confirmed u' = true.
Proof.
  induction steps as [|[r c] steps IH]; intros w i u Hi Hc; [by exists u|].
  cbn [run].
  destruct (table_step_lookup c _ _ i u (handle_table_step r c w) Hi) as [H|H].
  - by apply IH.
  - destruct (IH _ _ _ H eq_refl) as (u' & ? & ? & ?). by exists u'.
Qed.

(** C8: a row that comes into being during a request starts with
    [is_confirmed = false], and a row that is confirmed stays confirmed, at
    the same place and under the same id, through every sequence of
    requests: no operation sets [is_confirmed] back to false. *)
Theorem is_confirmed_never_reset steps w :
  (∀ r c i u,
     db w !! i = None → db (handle r c w).1 !! i = Some u →
     is_confirmed u = false)
  ∧ (∀ i u,
       db w !! i = Some u → is_confirmed u = true →
       ∃ u', db (run steps w) !! i = Some u' ∧ id u' = id u
             ∧ is_confirmed u' = true).
Proof.
  split.
  - intros r c i u Hnone Hi.
    by destruct (table_step_new_row c _ _ i u (handle_table_step r c w) Hnone Hi).
  - apply run_confirmed_stays.
Qed.

(** C10: a successful ConfirmEmail changes [is_confirmed] and
    [confirm_token] of the first row holding the token and nothing else:
    that row keeps its id, email, password_hash, company_name and role, every
    other row is as it was, and so are the session, the outbox and the log. *)
Theorem confirm_email_frame token w :
  outcome (confirm_email token w).2 = Success →
  let w' := (confirm_email token w).1 in
  ∃ i u u',
    find_by_token token (db w) = Some (i, u)
    ∧ db w !! i = Some u ∧ confirm_token u = Some token
    ∧ db w' !! i = Some u'
    ∧ is_confirmed u' = true ∧ confirm_token u' = None
    ∧ id u' = id u ∧ email u' = email u ∧ password_hash u' = password_hash u
    ∧ company_name u' = company_name u ∧ role u' = role u
    ∧ length (db w') = length (db w)
    ∧ (∀ j, j ≠ i → db w' !! j = db w !! j)
    ∧ session w' = session w ∧ outbox w' = outbox w ∧ stdout w' = stdout w.
Proof.
  intros Hok w'. subst w'.
  destruct (confirm_email_cases token w) as [(_ & _ & Hout)|(i & u & Hfind & -> & _)].
  { rewrite Hok in Hout. discriminate. }
  pose proof Hfind as (Hi & Htok & _)%list_find_Some.
  exists i, u, (mark_confirmed u). cbn [db session outbox stdout with_db].
  split_and!; try done.
  - apply list_lookup_insert_eq. by eapply lookup_lt_Some.
  - apply length_insert.
  - intros j Hne. by apply list_lookup_insert_ne.
Qed.

Lemma find_by_token_None token rows :
  find_by_token token rows = None ↔ ∀ u, u ∈ rows → confirm_token u ≠ Some token.
Proof. unfold find_by_token. by rewrite list_find_None, Forall_forall. Qed.

Lemma find_by_email_None e rows :
  find_by_email e rows = None ↔ ∀ u, u ∈ rows → email u ≠ e.
Proof. unfold find_by_email. by rewrite list_find_None, Forall_forall. Qed.

Lemma find_by_token_unique token rows i u :
  tokens_distinct rows → rows !! i = Some u → confirm_token u = Some token →
  find_by_token token rows = Some (i, u).
Proof.
  intros Hdist Hi Htok. apply list_find_Some. split_and!; [done..|].
  intros j v Hj Hlt Hv. pose proof (Hdist j i v u token Hj Hi Hv Htok). lia.
Qed.

Lemma consumed_token_not_found token rows i u :
  tokens_distinct rows → rows !! i = Some u → confirm_token u = Some token →
  find_by_token token (<[i := mark_confirmed u]> rows) = None.
Proof.
  intros Hdist Hi Htok. apply list_find_None, Forall_lookup. intros j v Hj Hv.
  apply list_lookup_insert_Some in Hj as [(-> & <- & _)|(Hne & Hj)]; [done|].
  apply Hne. by eapply Hdist.
Qed.

Lemma confirm_email_found token w i u :
  find_by_token token (db w) = Some (i, u) →
  confirm_email token w
  = (with_db (<[i := mark_confirmed u]> (db w)) w,
     flash_success
       "Sikeresen megerősítetted az e-mail címed! Most már beléphetsz."
       (url_for_index +:+ "#auth")).
Proof. intros H. unfold confirm_email. by rewrite H. Qed.

Lemma confirm_email_not_found token w :
  find_by_token token (db w) = None →
  confirm_email token w
  = (w, flash_error InvalidOrExpiredToken
          "Érvénytelen vagy lejárt megerősítő link." url_for_index).
Proof. intros H. unfold confirm_email. by rewrite H. Qed.

(** C4: ConfirmEmail with a token no account holds (one never issued, or
    one already used) answers InvalidOrExpiredToken and changes nothing.
    With a token some account holds it succeeds; and in a table whose
    tokens are pairwise distinct, which is what the token generator is
    relied on for (see [reachable_fresh_tokens_distinct]), that account
    becomes confirmed with no token, and the same call made again answers
    InvalidOrExpiredToken and changes nothing. *)
Theorem confirm_email_consumes_token token w :
  ((∀ u, u ∈ db w → confirm_token u ≠ Some token) →
     outcome (confirm_email token w).2 = Failure InvalidOrExpiredToken
     ∧ (confirm_email token w).1 = w)
  ∧ (∀ i u,
       db w !! i = Some u → confirm_token u = Some token →
       outcome (confirm_email token w).2 = Success
       ∧ (tokens_distinct (db w) →
          let w' := (confirm_email token w).1 in
          (∃ u', db w' !! i = Some u' ∧ id u' = id u
                 ∧ is_confirmed u' = true ∧ confirm_token u' = None)
          ∧ outcome (confirm_email token w').2 = Failure InvalidOrExpiredToken
          ∧ (confirm_email token w').1 = w')).
Proof.
  split.
  - intros Hnone%find_by_token_None. by rewrite confirm_email_not_found.
  - intros i u Hi Htok. split.
    + destruct (find_by_token token (db w)) as [[j v]|] eqn:Hfind.
      * by rewrite (confirm_email_found _ _ _ _ Hfind).
      * rewrite find_by_token_None in Hfind.
        destruct (Hfind u); [by eapply list_elem_of_lookup_2|done].
    + intros Hdist w'. subst w'.
      pose proof (find_by_token_unique _ _ _ _ Hdist Hi Htok) as Hfind.
      pose proof (consumed_token_not_found _ _ _ _ Hdist Hi Htok) as Hgone.
      rewrite (confirm_email_found _ _ _ _ Hfind). cbn [fst snd].
      rewrite confirm_email_not_found by done.
      split_and!; try done.
      exists (mark_confirmed u). split_and!; try done.
      cbn [db with_db]. apply list_lookup_insert_eq. by eapply lookup_lt_Some.
Qed.

Lemma table_step_tokens_distinct c rows rows' :
  table_step c rows rows' →
  (∀ u, u ∈ rows → confirm_token u ≠ Some (token_urlsafe c)) →
  tokens_distinct rows → tokens_distinct rows'.
Proof.
  intros Hstep Hfresh Hdist. destruct Hstep as [|u _ _ _ Hu|token k u Hfind]; [done|..].
  - intros i j a b t Hi Hj Ha Hb.
    apply lookup_app_Some in Hi as [Hi|[Hige Hi]];
      apply lookup_app_Some in Hj as [Hj|[Hjge Hj]].
    + by eapply Hdist.
    + apply list_lookup_singleton_Some in Hj as [_ <-].
      exfalso. eapply Hfresh; [by eapply list_elem_of_lookup_2|]. congruence.
    + apply list_lookup_singleton_Some in Hi as [_ <-].
      exfalso. eapply Hfresh; [by eapply list_elem_of_lookup_2|]. congruence.
    + apply list_lookup_singleton_Some in Hi as [Hi _].
      apply list_lookup_singleton_Some in Hj as [Hj _]. lia.
  - intros i j a b t Hi Hj Ha Hb.
    apply list_lookup_insert_Some in Hi as [(_ & <- & _)|(_ & Hi)]; [done|].
    apply list_lookup_insert_Some in Hj as [(_ & <- & _)|(_ & Hj)]; [done|].
    by eapply Hdist.
Qed.

Lemma reachable_fresh_tokens_distinct w :
  reachable_fresh w → tokens_distinct (db w).
Proof.
  induction 1 as [|w r c _ IH Hfresh].
  - intros i j u v t Hi. cbn [db init] in Hi. by rewrite lookup_nil in Hi.
  - by eapply table_step_tokens_distinct; [apply handle_table_step|..].
Qed.

Lemma py_not_true x : py_not x = true ↔ empty_field x.
Proof.
  unfold empty_field. destruct x as [s|]; cbn.
  - rewrite bool_decide_eq_true. split; [intros ->; by right|].
    intros [?|[= ->]]; done.
  - split; [by left|done].
Qed.

Lemma py_not_false x : py_not x = false ↔ ¬ empty_field x.
Proof. rewrite <- py_not_true. by destruct (py_not x). Qed.

Lemma present_str x : ¬ empty_field x → x = Some (str x).
Proof. destruct x; [done|]. intros H. destruct H. by left. Qed.

(** [register] once the three required fields are there. *)
Lemma register_present name email role password password2 c w :
  ¬ empty_field email → ¬ empty_field password → ¬ empty_field password2 →
  register name email role password password2 c w
  = if bool_decide (password ≠ password2) then
      (w, flash_error PasswordMismatch "A két jelszó nem egyezik!"
            (url_for_index +:+ "#auth"))
    else if negb (validate_email (str email)) then
      (w, flash_error InvalidEmail "Érvénytelen e-mail cím."
            (url_for_index +:+ "#auth"))
    else
      match find_by_email (str email) (db w) with
      | Some _ =>
          (w, flash_error DuplicateAccount
                "Ezzel az e-mail címmel már létezik fiók."
                (url_for_index +:+ "#auth"))
      | None =>
          (send_confirmation_email (str email) (token_urlsafe c) (smtp c)
             (with_db (db w ++ [new_row name email role password c (db w)]) w),
           flash_success
             "Sikeres regisztráció! Kérlek, erősítsd meg az e-mailedet."
             (url_for_index +:+ "#auth"))
      end.
Proof.
  intros He%py_not_false Hp%py_not_false Hp2%py_not_false.
  unfold register. by rewrite He, Hp, Hp2.
Qed.

Lemma filter_none {A} (P : A → Prop) `{∀ x, Decision (P x)} (l : list A) :
  (∀ x, x ∈ l → ¬ P x) → filter P l = [].
Proof.
  induction l as [|a l IH]; intros Hnone; [done|].
  rewrite filter_cons_False by (apply Hnone; left).
  apply IH. intros x Hx. apply Hnone. by right.
Qed.

Lemma holders_fresh t rows u :
  (∀ v, v ∈ rows → confirm_token v ≠ Some t) → confirm_token u = Some t →
  holders t (rows ++ [u]) = [u].
Proof.
  intros Hfresh Hu. unfold holders.
  by rewrite filter_app, filter_none, filter_singleton_True.
Qed.

(** C2: Register applies its checks in this order.  A missing or empty
    email, password or password confirmation gives ValidationError; with the
    three present, different passwords give PasswordMismatch; with equal
    passwords, an address the validator rejects gives InvalidEmail; with a
    valid address, an address some account already has gives
    DuplicateAccount; otherwise Register succeeds and the table grows by
    exactly one row, for that address, not confirmed, holding the token just
    drawn, which no other row holds when the generator drew a fresh one. *)
Theorem register_checks_in_order name addr role password password2 c w :
  let out := register name addr role password password2 c w in
  (empty_field addr ∨ empty_field password ∨ empty_field password2 →
     outcome out.2 = Failure ValidationError)
  ∧ (¬ empty_field addr → ¬ empty_field password → ¬ empty_field password2 →
     (password ≠ password2 → outcome out.2 = Failure PasswordMismatch)
     ∧ (password = password2 →
        (validate_email (str addr) = false →
           outcome out.2 = Failure InvalidEmail)
        ∧ (validate_email (str addr) = true →
           ((∃ u, u ∈ db w ∧ Some (email u) = addr) →
              outcome out.2 = Failure DuplicateAccount)
           ∧ ((∀ u, u ∈ db w → Some (email u) ≠ addr) →
              outcome out.2 = Success
              ∧ ∃ u, db out.1 = db w ++ [u]
                  ∧ Some (email u) = addr
                  ∧ is_confirmed u = false
                  ∧ confirm_token u = Some (token_urlsafe c)
                  ∧ ((∀ v, v ∈ db w → confirm_token v ≠ Some (token_urlsafe c)) →
                     holders (token_urlsafe c) (db out.1) = [u]))))).
Proof.
  intros out. subst out. split.
  - intros Hempty. unfold register.
    assert (py_not addr || py_not password || py_not password2 = true) as ->; [|done].
    rewrite !orb_true_iff, !py_not_true. tauto.
  - intros He Hp Hp2. rewrite register_present by done.
    pose proof (present_str addr He) as Hemail.
    split; [intros Hne; by rewrite bool_decide_eq_true_2|].
    intros Heq. rewrite bool_decide_eq_false_2 by (intros H; by apply H).
    split; [by intros ->|]. intros ->. cbn [negb]. split.
    + intros (u & Hin & Hu).
      destruct (find_by_email _ _) as [?|] eqn:Hfind; [done|].
      exfalso. eapply find_by_email_None in Hfind; [|done]. congruence.
    + intros Hfree.
      rewrite (proj2 (find_by_email_None _ _)); cycle 1.
      { intros u Hin Hu. apply (Hfree u Hin). congruence. }
      cbn [fst snd]. split; [done|].
      exists (new_row name addr role password c (db w)).
      unfold send_confirmation_email. rewrite send_email_db. cbn [db with_db].
      split_and!; try done. intros Hfresh. by apply holders_fresh.
Qed.

Lemma register_failure name addr role password password2 c w e :
  outcome (register name addr role password password2 c w).2 = Failure e →
  (register name addr role password password2 c w).1 = w
  ∧ (e = DuplicateAccount → is_Some (find_by_email (str addr) (db w))).
Proof.
  unfold register.
  destruct (_ || _); [by intros [= <-]|].
  case_bool_decide; [by intros [= <-]|].
  destruct (negb _); [by intros [= <-]|].
  destruct (find_by_email _ _) as [?|]; [by intros [= <-]|].
  cbn. discriminate.
Qed.

(** An address is stored at most once. *)
Lemma table_step_emails c rows rows' :
  table_step c rows rows' → NoDup (email <$> rows) → NoDup (email <$> rows').
Proof.
  intros Hstep Hnd. destruct Hstep as [|u Hfree _ _ _|token i u Hfind]; [done|..].
  - rewrite fmap_app. apply NoDup_app. split_and!; [done| |apply NoDup_singleton].
    intros e (v & -> & Hv)%list_elem_of_fmap Heq%list_elem_of_singleton.
    rewrite find_by_email_None in Hfree. by apply (Hfree v).
  - apply list_find_Some in Hfind as (Hi & _).
    rewrite list_fmap_insert. rewrite list_insert_id; [done|].
    by rewrite list_lookup_fmap, Hi.
Qed.

Lemma reachable_emails w : reachable w → NoDup (email <$> db w).
Proof.
  induction 1 as [|w r c _ IH]; [apply NoDup_nil_2|].
  by eapply table_step_emails; [apply handle_table_step|].
Qed.

Lemma accounts_for_at_most_one e rows :
  NoDup (email <$> rows) → (length (accounts_for e rows) ≤ 1)%nat.
Proof.
  unfold accounts_for. induction rows as [|u rows IH]; [cbn; lia|].
  rewrite fmap_cons. intros [Hnotin Hnd]%NoDup_cons.
  destruct (decide (email u = e)) as [<-|Hne].
  - rewrite filter_cons_True by done. rewrite filter_none; [cbn; lia|].
    intros v Hv Heq. apply Hnotin. rewrite <- Heq. by apply list_elem_of_fmap_2.
  - rewrite filter_cons_False by done. by apply IH.
Qed.

Lemma accounts_for_found e rows i u :
  find_by_email e rows = Some (i, u) → u ∈ accounts_for e rows.
Proof.
  intros (Hi & He & _)%list_find_Some. apply list_elem_of_filter.
  split; [done|]. by eapply list_elem_of_lookup_2.
Qed.

(** C3: a Register call that answers with an error, whichever it is,
    leaves the world as it was, so no account is created; and when the
    error is DuplicateAccount in a reachable world, the table still has
    exactly one account for that address. *)
Theorem register_error_keeps_store name addr role password password2 c w e :
  outcome (register name addr role password password2 c w).2 = Failure e →
  (register name addr role password password2 c w).1 = w
  ∧ (e = DuplicateAccount → reachable w →
     ∃ u, accounts_for (str addr)
            (db (register name addr role password password2 c w).1) = [u]).
Proof.
  intros Hfail.
  destruct (register_failure _ _ _ _ _ _ _ _ Hfail) as [-> Hdup].
  split; [done|]. intros [[i u] Hfind]%Hdup Hreach.
  pose proof (accounts_for_found _ _ _ _ Hfind) as Hin.
  pose proof (accounts_for_at_most_one (str addr) _ (reachable_emails w Hreach)) as Hle.
  destruct (accounts_for _ _) as [|a [|b l]]; cbn in Hle.
  - by apply elem_of_nil in Hin.
  - by exists a.
  - lia.
Qed.

(** [login] once both fields are there. *)
Lemma login_present addr password w :
  ¬ empty_field addr → ¬ empty_field password →
  login addr password w
  = match find_by_email (str addr) (db w) with
    | None =>
        (w, flash_error InvalidCredentials "Hibás e-mail vagy jelszó."
              (url_for_index +:+ "#auth"))
    | Some (_, user) =>
        if negb (check_password_hash (password_hash user) (str password)) then
          (w, flash_error InvalidCredentials "Hibás e-mail vagy jelszó."
                (url_for_index +:+ "#auth"))
        else if negb (is_confirmed user) then
          (w, flash_error EmailNotConfirmed
                "Kérlek, először erősítsd meg az e-mail címedet!"
                (url_for_index +:+ "#auth"))
        else
          (with_session (Some (id user)) w,
           flash_success "Sikeres belépés!" url_for_index)
    end.
Proof.
  intros He%py_not_false Hp%py_not_false. unfold login. by rewrite He, Hp.
Qed.

(** C5: with both fields non-empty, Login for an address no account
    has and Login for an address whose account rejects the password give
    the same response, InvalidCredentials with the same message and
    redirect, and neither changes the world. *)
Theorem login_hides_account_existence addr password w1 w2 i u :
  ¬ empty_field addr → ¬ empty_field password →
  (∀ v, v ∈ db w1 → Some (email v) ≠ addr) →
  find_by_email (str addr) (db w2) = Some (i, u) →
  check_password_hash (password_hash u) (str password) = false →
  outcome (login addr password w1).2 = Failure InvalidCredentials
  ∧ outcome (login addr password w2).2 = Failure InvalidCredentials
  ∧ (login addr password w1).2 = (login addr password w2).2
  ∧ (login addr password w1).1 = w1
  ∧ (login addr password w2).1 = w2.
Proof.
  intros He Hp Habsent Hfound Hwrong.
  rewrite !login_present by done. rewrite Hfound, Hwrong. cbn [negb].
  rewrite (proj2 (find_by_email_None _ _)); [done|].
  intros v Hv Heq. apply (Habsent v Hv). rewrite Heq. symmetry. by apply present_str.
Qed.

(** C6: with both fields non-empty and the password verifying against
    the hash of the account found for the address, Login answers
    EmailNotConfirmed and leaves the world (the session included) untouched
    when the account is not confirmed; when it is confirmed Login succeeds
    and [session["user_id"]] is that account's id. *)
Theorem login_correct_password addr password w i u :
  ¬ empty_field addr → ¬ empty_field password →
  find_by_email (str addr) (db w) = Some (i, u) →
  check_password_hash (password_hash u) (str password) = true →
  (is_confirmed u = false →
     outcome (login addr password w).2 = Failure EmailNotConfirmed
     ∧ (login addr password w).1 = w)
  ∧ (is_confirmed u = true →
     outcome (login addr password w).2 = Success
     ∧ session (login addr password w).1 = Some (id u)
     ∧ db (login addr password w).1 = db w).
Proof.
  intros He Hp Hfound Hok. rewrite login_present by done.
  rewrite Hfound, Hok. cbn [negb]. split; by intros ->.
Qed.

Lemma send_confirmation_email_db to_email token o w :
  db (send_confirmation_email to_email token o w) = db w.
Proof. apply send_email_db. Qed.

Lemma send_email_raised to_email subject body e w :
  outbox (send_email to_email subject body (Raised e) w) = outbox w.
Proof. unfold send_email. by destruct (_ || _). Qed.

(** The table, the session and the response of [register] do not read the
    SMTP outcome. *)
Lemma register_ignores_smtp name addr role password password2 token salt o1 o2 w :
  let out1 := register name addr role password password2 (mkChance token salt o1) w in
  let out2 := register name addr role password password2 (mkChance token salt o2) w in
  out1.2 = out2.2 ∧ db out1.1 = db out2.1 ∧ session out1.1 = session out2.1.
Proof.
  unfold register; cbn zeta.
  destruct (_ || _); [done|]. case_bool_decide; [done|].
  destruct (negb _); [done|]. destruct (find_by_email _ _); [done|].
  cbn [fst snd token_urlsafe gensalt smtp]. unfold send_confirmation_email.
  by rewrite !send_email_db, !send_email_session.
Qed.

Lemma contact_ignores_smtp name addr subject message token salt o1 o2 w :
  let out1 := contact name addr subject message (mkChance token salt o1) w in
  let out2 := contact name addr subject message (mkChance token salt o2) w in
  out1.2 = out2.2 ∧ db out1.1 = db out2.1 ∧ session out1.1 = session out2.1.
Proof.
  unfold contact; cbn zeta.
  destruct (_ || _); [done|]. destruct (negb _); [done|].
  cbn [fst snd smtp]. unfold send_contact_email.
  by rewrite !send_email_db, !send_email_session.
Qed.

Lemma contact_present name addr subject message c w :
  ¬ empty_field name → ¬ empty_field addr → ¬ empty_field subject →
  ¬ empty_field message → validate_email (str addr) = true →
  contact name addr subject message c w
  = (send_contact_email (str name) (str addr) (str subject) (str message)
       (smtp c) w,
     flash_success "Köszönjük az üzeneted, hamarosan jelentkezünk!"
       (url_for_index +:+ "#contact")).
Proof.
  intros Hn%py_not_false He%py_not_false Hs%py_not_false Hm%py_not_false Hv.
  unfold contact. by rewrite Hn, He, Hs, Hm, Hv.
Qed.

Lemma absent_not_found addr rows :
  ¬ empty_field addr → (∀ u, u ∈ rows → Some (email u) ≠ addr) →
  find_by_email (str addr) rows = None.
Proof.
  intros He Hfree. apply find_by_email_None. intros u Hu Heq.
  apply (Hfree u Hu). rewrite Heq. symmetry. by apply present_str.
Qed.

(** [register] once every check has passed. *)
Lemma register_accepted name addr role password c w :
  ¬ empty_field addr → ¬ empty_field password →
  validate_email (str addr) = true →
  (∀ u, u ∈ db w → Some (email u) ≠ addr) →
  register name addr role password password c w
  = (send_confirmation_email (str addr) (token_urlsafe c) (smtp c)
       (with_db (db w ++ [new_row name addr role password c (db w)]) w),
     flash_success "Sikeres regisztráció! Kérlek, erősítsd meg az e-mailedet."
       (url_for_index +:+ "#auth")).
Proof.
  intros He Hp Hvalid Hfree. rewrite register_present by done.
  rewrite bool_decide_eq_false_2 by (intros H; by apply H).
  rewrite Hvalid. cbn [negb]. by rewrite absent_not_found.
Qed.

(** C7: what the mail dispatcher does never reaches the result.  For any
    two SMTP outcomes, Register and SubmitContact give the same response,
    table and session; a Register that passes its checks succeeds and the
    account row is there, also when sending raised (then nothing is in the
    outbox); a SubmitContact with all four fields and a valid address
    succeeds, also when sending raised. *)
Theorem mail_failure_never_changes_result token salt o o' w :
  (∀ name addr role password password2,
     let out := register name addr role password password2
                  (mkChance token salt o) w in
     let out' := register name addr role password password2
                   (mkChance token salt o') w in
     out.2 = out'.2 ∧ db out.1 = db out'.1 ∧ session out.1 = session out'.1)
  ∧ (∀ name addr subject message,
       let out := contact name addr subject message (mkChance token salt o) w in
       let out' := contact name addr subject message (mkChance token salt o') w in
       out.2 = out'.2 ∧ db out.1 = db out'.1 ∧ session out.1 = session out'.1)
  ∧ (∀ name addr role password,
       ¬ empty_field addr → ¬ empty_field password →
       validate_email (str addr) = true →
       (∀ u, u ∈ db w → Some (email u) ≠ addr) →
       let out := register name addr role password password
                    (mkChance token salt o) w in
       outcome out.2 = Success
       ∧ (∃ u, u ∈ db out.1 ∧ Some (email u) = addr)
       ∧ (∀ e, o = Raised e → outbox out.1 = outbox w))
  ∧ (∀ name addr subject message,
       ¬ empty_field name → ¬ empty_field addr → ¬ empty_field subject →
       ¬ empty_field message → validate_email (str addr) = true →
       let out := contact name addr subject message (mkChance token salt o) w in
       outcome out.2 = Success
       ∧ db out.1 = db w ∧ session out.1 = session w
       ∧ (∀ e, o = Raised e → outbox out.1 = outbox w)).
Proof.
  split_and!.
  - intros. apply register_ignores_smtp.
  - intros. apply contact_ignores_smtp.
  - intros name addr role password He Hp Hvalid Hfree out. subst out.
    rewrite register_accepted by done. cbn [fst snd smtp].
    unfold send_confirmation_email. rewrite send_email_db. cbn [db with_db].
    split_and!; [done| |].
    + exists (new_row name addr role password (mkChance token salt o) (db w)).
      split; [apply elem_of_app; right; by apply list_elem_of_singleton|].
      cbn [email new_row]. symmetry. by apply present_str.
    + intros e ->. by rewrite send_email_raised.
  - intros name addr subject message Hn He Hs Hm Hvalid out. subst out.
    rewrite contact_present by done. cbn [fst snd smtp].
    unfold send_contact_email. rewrite send_email_db, send_email_session.
    split_and!; try done.
    intros e ->. by rewrite send_email_raised.
Qed.

Lemma next_id_above rows u : u ∈ rows → id u < next_id rows.
Proof.
  unfold next_id. induction 1 as [u rows|u v rows _ IH]; cbn [fmap list_fmap foldr]; lia.
Qed.

End Properties.

(** * Further properties of the handlers *)

Section Further.
Context {env : Collaborators}.

(** ** Login, seen from its result *)

Lemma login_success addr password w :
  outcome (login addr password w).2 = Success →
  ∃ i u, find_by_email (str addr) (db w) = Some (i, u)
         ∧ ¬ empty_field addr ∧ ¬ empty_field password
         ∧ check_password_hash (password_hash u) (str password) = true
         ∧ is_confirmed u = true
         ∧ (login addr password w).1 = with_session (Some (id u)) w.
Proof.
  unfold login. destruct (_ || _) eqn:Hfields; [done|].
  apply orb_false_iff in Hfields as [He%py_not_false Hp%py_not_false].
  destruct (find_by_email _ _) as [[i u]|]; [|done].
  destruct (check_password_hash _ _) eqn:Hcheck; [|done].
  destruct (is_confirmed u) eqn:Hconf; [|done].
  intros _. by exists i, u.
Qed.

Lemma login_failure addr password w e :
  outcome (login addr password w).2 = Failure e → (login addr password w).1 = w.
Proof.
  unfold login. destruct (_ || _); [done|].
  destruct (find_by_email _ _) as [[i u]|]; [|done].
  destruct (negb _); [done|]. by destruct (negb _).
Qed.

(** X3: Login succeeds only for a stored account whose address is the
    submitted string, whose hash accepts the submitted password and which
    is confirmed; the session then holds that account's id. *)
Theorem login_only_for_confirmed_accounts addr password w :
  outcome (login addr password w).2 = Success →
  ∃ i u, db w !! i = Some u
         ∧ Some (email u) = addr
         ∧ check_password_hash (password_hash u) (str password) = true
         ∧ is_confirmed u = true
         ∧ session (login addr password w).1 = Some (id u).
Proof.
  intros (i & u & Hfind & He & _ & Hcheck & Hconf & ->)%login_success.
  apply list_find_Some in Hfind as (Hi & Hu & _).
  exists i, u. split_and!; try done.
  rewrite Hu. symmetry. by apply present_str.
Qed.

(** X4: Login with a missing or empty address or password answers
    ValidationError; every rejected Login leaves the world, and so an
    earlier session, as it was; and no Login, accepted or not, writes to
    the table or sends mail. *)
Theorem login_rejections_change_nothing addr password w :
  (empty_field addr ∨ empty_field password →
     outcome (login addr password w).2 = Failure ValidationError)
  ∧ (∀ e, outcome (login addr password w).2 = Failure e →
          (login addr password w).1 = w)
  ∧ db (login addr password w).1 = db w
  ∧ outbox (login addr password w).1 = outbox w.
Proof.
  split_and!.
  - intros Hempty. unfold login.
    assert (py_not addr || py_not password = true) as ->; [|done].
    rewrite orb_true_iff, !py_not_true. tauto.
  - intros e. apply login_failure.
  - apply login_db.
  - destruct (outcome (login addr password w).2) as [|e] eqn:Hout.
    + apply login_success in Hout as (i & u & _ & _ & _ & _ & _ & ->). done.
    + by rewrite (login_failure _ _ _ _ Hout).
Qed.

(** ** The session *)

Lemma handle_session r c w :
  session (handle r c w).1 = session w
  ∨ (r = Logout ∧ session (handle r c w).1 = None)
  ∨ (∃ addr password i u,
       r = Login addr password
       ∧ db w !! i = Some u ∧ is_confirmed u = true
       ∧ session (handle r c w).1 = Some (id u)).
Proof.
  destruct r as [name addr role password password2|addr password| |token
                |name addr subject message]; cbn [handle].
  - left. destruct (register_cases name addr role password password2 c w)
      as [[-> _]|(_ & _ & -> & _)]; done.
  - destruct (outcome (login addr password w).2) as [|e] eqn:Hout.
    + right; right.
      apply login_success in Hout as (i & u & Hfind & _ & _ & _ & Hconf & ->).
      apply list_find_Some in Hfind as (Hi & _). by exists addr, password, i, u.
    + left. by rewrite (login_failure _ _ _ _ Hout).
  - right; left. done.
  - left. by destruct (confirm_email_cases token w)
      as [(_ & -> & _)|(i & u & _ & -> & _)].
  - left. unfold contact. destruct (_ || _); [done|]. destruct (negb _); [done|].
    cbn [fst]. unfold send_contact_email. by rewrite send_email_session.
Qed.

(** The session is empty or names a confirmed row. *)
Definition session_sound (w : World) : Prop :=
  ∀ k, session w = Some k →
       ∃ i u, db w !! i = Some u ∧ id u = k ∧ is_confirmed u = true.

Lemma handle_session_sound r c w : session_sound w → session_sound (handle r c w).1.
Proof.
  intros Hsound k Hk.
  assert (∀ i u, db w !! i = Some u → is_confirmed u = true →
            ∃ u', db (handle r c w).1 !! i = Some u' ∧ id u' = id u
                  ∧ is_confirmed u' = true) as Hkeep.
  { intros i u Hi Hconf.
    destruct (table_step_lookup c _ _ i u (handle_table_step r c w) Hi) as [H|H].
    - by exists u.
    - by exists (mark_confirmed u). }
  destruct (handle_session r c w) as [Hsame|[[_ Hnone]|(a & p & i & u & _ & Hi & Hconf & Hs)]].
  - rewrite Hsame in Hk. destruct (Hsound k Hk) as (i & u & Hi & <- & Hconf).
    destruct (Hkeep i u Hi Hconf) as (u' & ? & ? & ?). by exists i, u'.
  - congruence.
  - rewrite Hs in Hk. injection Hk as <-.
    destruct (Hkeep i u Hi Hconf) as (u' & ? & ? & ?). by exists i, u'.
Qed.

Lemma reachable_session_sound w : reachable w → session_sound w.
Proof.
  induction 1 as [|w r c _ IH]; [by intros k|]. by apply handle_session_sound.
Qed.

(** ** Primary keys *)

Lemma table_step_ids c rows rows' :
  table_step c rows rows' → NoDup (id <$> rows) → NoDup (id <$> rows').
Proof.
  intros Hstep Hnd. destruct Hstep as [|u _ Hid _ _|token i u Hfind]; [done|..].
  - rewrite fmap_app. apply NoDup_app. split_and!; [done| |apply NoDup_singleton].
    intros k (v & -> & Hv)%list_elem_of_fmap Heq%list_elem_of_singleton.
    pose proof (next_id_above rows v Hv). cbn in Heq. lia.
  - apply list_find_Some in Hfind as (Hi & _).
    rewrite list_fmap_insert. rewrite list_insert_id; [done|].
    by rewrite list_lookup_fmap, Hi.
Qed.

Lemma reachable_ids w : reachable w → NoDup (id <$> db w).
Proof.
  induction 1 as [|w r c _ IH]; [apply NoDup_nil_2|].
  by eapply table_step_ids; [apply handle_table_step|].
Qed.

Lemma get_unique k (rows : list User) i u :
  NoDup (id <$> rows) → rows !! i = Some u → id u = k → get k rows = Some u.
Proof.
  intros Hnd Hi Hk. unfold get.
  destruct (list_find (λ u, id u = k) rows) as [[j v]|] eqn:Hfind.
  - apply list_find_Some in Hfind as (Hj & Hv & _). cbn.
    assert (j = i) as ->; [|congruence].
    eapply NoDup_lookup; [done|..]; rewrite list_lookup_fmap.
    + by rewrite Hj.
    + rewrite Hi. cbn. congruence.
  - rewrite list_find_None, Forall_forall in Hfind.
    destruct (Hfind u); [by eapply list_elem_of_lookup_2|done].
Qed.

(** X2: in every reachable world the session is empty, and [index] shows
    nobody, or it holds the id of a row of the table that is confirmed, and
    [index] shows that row's address: the session never names an account
    that is missing or not confirmed. *)
Theorem session_names_a_confirmed_account w :
  reachable w →
  (session w = None ∧ index w = (false, None))
  ∨ (∃ u, u ∈ db w ∧ session w = Some (id u) ∧ is_confirmed u = true
          ∧ index w = (true, Some (email u))).
Proof.
  intros Hreach. pose proof (reachable_session_sound w Hreach) as Hsound.
  unfold index. destruct (session w) as [k|] eqn:Hk; [right|by left].
  destruct (Hsound k Hk) as (i & u & Hi & Hid & Hconf).
  exists u. rewrite (get_unique k _ i u (reachable_ids w Hreach) Hi Hid).
  split_and!; [by eapply list_elem_of_lookup_2|by rewrite Hid|done..].
Qed.

(** X16: in a reachable world no two rows have the same id, and
    [User.query.get] on a row's id returns that row. *)
Theorem get_returns_the_row_of_its_id w i u :
  reachable w → db w !! i = Some u →
  get (id u) (db w) = Some u
  ∧ (∀ j v, db w !! j = Some v → id v = id u → j = i).
Proof.
  intros Hreach Hi. pose proof (reachable_ids w Hreach) as Hnd. split.
  - by eapply get_unique.
  - intros j v Hj Hid. eapply NoDup_lookup; [done|..]; rewrite list_lookup_fmap.
    + rewrite Hj. cbn. by rewrite Hid.
    + by rewrite Hi.
Qed.

(** X15: in a reachable world no two rows store the same address, and
    looking a row up by its address returns that row. *)
Theorem find_by_email_returns_the_only_row w i u :
  reachable w → db w !! i = Some u →
  find_by_email (email u) (db w) = Some (i, u)
  ∧ (∀ j v, db w !! j = Some v → email v = email u → j = i).
Proof.
  intros Hreach Hi. pose proof (reachable_emails w Hreach) as Hnd.
  assert (∀ j v, db w !! j = Some v → email v = email u → j = i) as Honly.
  { intros j v Hj He. eapply NoDup_lookup; [done|..]; rewrite list_lookup_fmap.
    - rewrite Hj. cbn. by rewrite He.
    - by rewrite Hi. }
  split; [|done]. apply list_find_Some. split_and!; [done..|].
  intros j v Hj Hlt He. pose proof (Honly j v Hj He). lia.
Qed.

Lemma register_success name addr role password password2 c w :
  outcome (register name addr role password password2 c w).2 = Success →
  ¬ empty_field addr ∧ ¬ empty_field password ∧ password = password2
  ∧ validate_email (str addr) = true
  ∧ find_by_email (str addr) (db w) = None
  ∧ (register name addr role password password2 c w).1
    = send_confirmation_email (str addr) (token_urlsafe c) (smtp c)
        (with_db (db w ++ [new_row name addr role password c (db w)]) w).
Proof.
  unfold register. destruct (_ || _) eqn:Hfields; [done|].
  apply orb_false_iff in Hfields as [Hfields _].
  apply orb_false_iff in Hfields as [He%py_not_false Hp%py_not_false].
  case_bool_decide as Hpw; [done|].
  destruct (validate_email _) eqn:Hvalid; [|done]. cbn [negb].
  destruct (find_by_email _ _) as [?|] eqn:Hfind; [done|]. intros _.
  split_and!; try done.
Qed.

(** What [register] writes into a row it creates. *)
Definition came_through_register (u : User) : Prop :=
  email u ≠ "" ∧ validate_email (email u) = true
  ∧ ∃ password salt,
      password ≠ "" ∧ password_hash u = generate_password_hash password salt.

Lemma handle_came_through_register r c w :
  Forall came_through_register (db w) →
  Forall came_through_register (db (handle r c w).1).
Proof.
  intros Hall.
  destruct r as [name addr role password password2|addr password| |token
                |name addr subject message]; cbn [handle].
  - destruct (outcome (register name addr role password password2 c w).2)
      as [|e] eqn:Hout.
    + apply register_success in Hout as (He & Hp & _ & Hvalid & _ & ->).
      rewrite send_confirmation_email_db. cbn [db with_db].
      apply Forall_app. split; [done|]. apply Forall_singleton.
      unfold came_through_register. cbn [email password_hash new_row].
      split_and!; [|done|].
      * intros Hempty. apply He. right. by rewrite (present_str addr He), Hempty.
      * exists (str password), (gensalt c). split; [|done].
        intros Hempty. apply Hp. right. by rewrite (present_str password Hp), Hempty.
    + by destruct (register_failure _ _ _ _ _ _ _ _ Hout) as [-> _].
  - by rewrite login_db.
  - done.
  - destruct (confirm_email_cases token w) as [(_ & -> & _)|(i & u & Hf & -> & _)];
      [done|]. cbn [db with_db]. apply Forall_insert; [done|].
    apply list_find_Some in Hf as (Hi & _). rewrite Forall_lookup in Hall.
    apply (Hall i u Hi).
  - by rewrite contact_db.
Qed.

(** X14: every account of a reachable world has a non-empty address that
    the validator accepts, and a password_hash that the hasher produced
    from a non-empty password. *)
Theorem stored_accounts_passed_the_checks w u :
  reachable w → u ∈ db w →
  email u ≠ "" ∧ validate_email (email u) = true
  ∧ ∃ password salt,
      password ≠ "" ∧ password_hash u = generate_password_hash password salt.
Proof.
  intros Hreach Hin.
  assert (Forall came_through_register (db w)) as Hall.
  { clear u Hin. induction Hreach as [|w r c _ IH]; [constructor|].
    by apply handle_came_through_register. }
  rewrite Forall_forall in Hall. by apply Hall.
Qed.

Lemma table_step_length c rows rows' :
  table_step c rows rows' → (length rows ≤ length rows')%nat.
Proof.
  destruct 1; [done|rewrite length_app; cbn; lia|by rewrite length_insert].
Qed.

(** X13: through any sequence of requests the table never shrinks, and
    every row stays at its place with its id, email, password_hash,
    company_name and role. *)
Theorem rows_are_kept steps w :
  (length (db w) ≤ length (db (run steps w)))%nat
  ∧ ∀ i u, db w !! i = Some u →
      ∃ u', db (run steps w) !! i = Some u'
            ∧ id u' = id u ∧ email u' = email u
            ∧ password_hash u' = password_hash u
            ∧ company_name u' = company_name u ∧ role u' = role u.
Proof.
  revert w. induction steps as [|[r c] steps IH]; intros w.
  - split; [done|]. intros i u Hi. by exists u.
  - cbn [run]. destruct (IH (handle r c w).1) as [Hlen Hrows]. split.
    + pose proof (table_step_length c _ _ (handle_table_step r c w)). lia.
    + intros i u Hi.
      destruct (table_step_lookup c _ _ i u (handle_table_step r c w) Hi) as [H|H];
        destruct (Hrows _ _ H) as (u' & ? & ? & ? & ? & ? & ?); by exists u'.
Qed.

(** X12: a row that is not confirmed before a request and confirmed after
    it was confirmed by ConfirmEmail, called with the token that row held:
    no other request, and no other token, confirms an account. *)
Theorem only_its_token_confirms_an_account r c w i u u' :
  db w !! i = Some u → is_confirmed u = false →
  db (handle r c w).1 !! i = Some u' → is_confirmed u' = true →
  ∃ token, r = ConfirmEmail token ∧ confirm_token u = Some token.
Proof.
  intros Hi Hno Hi' Hyes.
  assert (db (handle r c w).1 !! i = Some u → False) as Hsame.
  { intros H. rewrite H in Hi'. injection Hi' as <-. congruence. }
  destruct r as [name addr role password password2|addr password| |token
                |name addr subject message]; cbn [handle] in *.
  - destruct Hsame.
    destruct (register_cases name addr role password password2 c w)
      as [[-> _]|(_ & -> & _)]; [done|]. by apply lookup_app_l_Some.
  - destruct Hsame. by rewrite login_db.
  - by destruct Hsame.
  - exists token. split; [done|].
    destruct (confirm_email_cases token w) as [(_ & Heq & _)|(j & v & Hf & Heq & _)];
      rewrite Heq in *; [by destruct Hsame|]. cbn [db with_db] in *.
    apply list_find_Some in Hf as (Hj & Htok & _).
    destruct (decide (j = i)) as [->|Hne]; [congruence|].
    destruct Hsame. by rewrite list_lookup_insert_ne.
  - destruct Hsame. by rewrite contact_db.
Qed.

(** ** Outgoing mail *)

Lemma send_email_unconfigured to_email subject body o w :
  empty_field MAIL_USERNAME ∨ empty_field MAIL_PASSWORD →
  outbox (send_email to_email subject body o w) = outbox w.
Proof.
  intros Hmissing. unfold send_email.
  assert (py_not MAIL_USERNAME || py_not MAIL_PASSWORD = true) as ->; [|done].
  rewrite orb_true_iff, !py_not_true. tauto.
Qed.

Lemma send_email_delivered to_email subject body w :
  ¬ empty_field MAIL_USERNAME → ¬ empty_field MAIL_PASSWORD →
  outbox (send_email to_email subject body Delivered w)
  = outbox w ++ [{| mail_from := str MAIL_USERNAME; mail_to := to_email;
                    mail_subject := subject; mail_body := body |}].
Proof.
  intros Hu%py_not_false Hp%py_not_false. unfold send_email. by rewrite Hu, Hp.
Qed.

Lemma send_email_outbox to_email subject body o w :
  outbox (send_email to_email subject body o w) = outbox w
  ∨ (o = Delivered ∧ ¬ empty_field MAIL_USERNAME ∧ ¬ empty_field MAIL_PASSWORD
     ∧ outbox (send_email to_email subject body o w)
       = outbox w ++ [{| mail_from := str MAIL_USERNAME; mail_to := to_email;
                         mail_subject := subject; mail_body := body |}]).
Proof.
  destruct o as [|e]; [|left; apply send_email_raised].
  destruct (py_not MAIL_USERNAME) eqn:Hu.
  { left. apply send_email_unconfigured. left. by apply py_not_true. }
  destruct (py_not MAIL_PASSWORD) eqn:Hp.
  { left. apply send_email_unconfigured. right. by apply py_not_true. }
  apply py_not_false in Hu, Hp. right. split_and!; try done.
  by apply send_email_delivered.
Qed.

Lemma contact_failure name addr subject message c w e :
  outcome (contact name addr subject message c w).2 = Failure e →
  (contact name addr subject message c w).1 = w.
Proof.
  unfold contact. destruct (_ || _); [done|]. by destruct (negb _).
Qed.

Lemma contact_success name addr subject message c w :
  outcome (contact name addr subject message c w).2 = Success →
  (contact name addr subject message c w).1
  = send_contact_email (str name) (str addr) (str subject) (str message)
      (smtp c) w.
Proof.
  unfold contact. destruct (_ || _); [done|]. by destruct (negb _).
Qed.

Lemma login_outbox addr password w :
  outbox (login addr password w).1 = outbox w.
Proof.
  unfold login. destruct (_ || _); [done|].
  destruct (find_by_email _ _) as [[? u]|]; [|done].
  destruct (negb _); [done|]. by destruct (negb _).
Qed.

(** X9: a request sends no mail or exactly one.  When it sends one, the
    request is a Register or a SubmitContact that succeeded, both mail
    credentials are set, the SMTP conversation went through, the sender is
    [MAIL_USERNAME], and the recipient is the submitted address for
    Register and [MAIL_USERNAME] for SubmitContact. *)
Theorem mail_leaves_only_on_delivery r c w :
  outbox (handle r c w).1 = outbox w
  ∨ ∃ m, outbox (handle r c w).1 = outbox w ++ [m]
         ∧ outcome (handle r c w).2 = Success
         ∧ smtp c = Delivered
         ∧ ¬ empty_field MAIL_USERNAME ∧ ¬ empty_field MAIL_PASSWORD
         ∧ Some (mail_from m) = MAIL_USERNAME
         ∧ ((∃ name addr role password password2,
               r = Register name addr role password password2
               ∧ Some (mail_to m) = addr)
            ∨ (∃ name addr subject message,
                 r = SubmitContact name addr subject message
                 ∧ Some (mail_to m) = MAIL_USERNAME)).
Proof.
  destruct r as [name addr role password password2|addr password| |token
                |name addr subject message]; cbn [handle].
  - destruct (outcome (register name addr role password password2 c w).2)
      as [|e] eqn:Hout.
    + apply register_success in Hout as (He & _ & _ & _ & _ & ->).
      unfold send_confirmation_email.
      match goal with |- context [send_email ?t ?s ?b ?o ?w] =>
        destruct (send_email_outbox t s b o w) as [Hsame|(Ho & Hu & Hp & Hsent)]
      end.
      * by left.
      * right. eexists. split; [exact Hsent|]. split_and!; try done.
        -- cbn. symmetry. by apply present_str.
        -- left. eexists _, _, _, _, _. split; [done|]. cbn. symmetry.
           by apply present_str.
    + left. by destruct (register_failure _ _ _ _ _ _ _ _ Hout) as [-> _].
  - left. apply login_outbox.
  - by left.
  - left. by destruct (confirm_email_cases token w)
      as [(_ & -> & _)|(i & u & _ & -> & _)].
  - destruct (outcome (contact name addr subject message c w).2) as [|e] eqn:Hout.
    + rewrite (contact_success _ _ _ _ _ _ Hout). unfold send_contact_email.
      match goal with |- context [send_email ?t ?s ?b ?o ?w] =>
        destruct (send_email_outbox t s b o w) as [Hsame|(Ho & Hu & Hp & Hsent)]
      end.
      * by left.
      * right. eexists. split; [exact Hsent|]. split_and!; try done.
        -- cbn. symmetry. by apply present_str.
        -- right. eexists _, _, _, _. split; [done|]. cbn. symmetry.
           by apply present_str.
    + left. by rewrite (contact_failure _ _ _ _ _ _ _ Hout).
Qed.

Lemma handle_outbox_unconfigured r c w :
  empty_field MAIL_USERNAME ∨ empty_field MAIL_PASSWORD →
  outbox (handle r c w).1 = outbox w.
Proof.
  intros Hmissing.
  destruct r as [name addr role password password2|addr password| |token
                |name addr subject message]; cbn [handle].
  - destruct (outcome (register name addr role password password2 c w).2)
      as [|e] eqn:Hout.
    + apply register_success in Hout as (_ & _ & _ & _ & _ & ->).
      unfold send_confirmation_email. by rewrite send_email_unconfigured.
    + by destruct (register_failure _ _ _ _ _ _ _ _ Hout) as [-> _].
  - apply login_outbox.
  - done.
  - by destruct (confirm_email_cases token w)
      as [(_ & -> & _)|(i & u & _ & -> & _)].
  - destruct (outcome (contact name addr subject message c w).2) as [|e] eqn:Hout.
    + rewrite (contact_success _ _ _ _ _ _ Hout). unfold send_contact_email.
      by rewrite send_email_unconfigured.
    + by rewrite (contact_failure _ _ _ _ _ _ _ Hout).
Qed.

(** X10: when [MAIL_USERNAME] or [MAIL_PASSWORD] is unset or empty, no
    sequence of requests ever sends a message. *)
Theorem no_credentials_no_mail steps w :
  empty_field MAIL_USERNAME ∨ empty_field MAIL_PASSWORD →
  outbox (run steps w) = outbox w.
Proof.
  intros Hmissing. revert w.
  induction steps as [|[r c] steps IH]; intros w; [done|].
  cbn [run]. rewrite IH. by apply handle_outbox_unconfigured.
Qed.

(** X8: an accepted Register, with both mail credentials set and the
    SMTP conversation going through, appends one row and sends one message,
    to the submitted address, whose body contains the confirmation link
    built from the very token stored in that row. *)
Theorem confirmation_mail_links_the_stored_token
    name addr role password password2 c w :
  outcome (register name addr role password password2 c w).2 = Success →
  ¬ empty_field MAIL_USERNAME → ¬ empty_field MAIL_PASSWORD →
  smtp c = Delivered →
  ∃ u m before after,
    db (register name addr role password password2 c w).1 = db w ++ [u]
    ∧ outbox (register name addr role password password2 c w).1
      = outbox w ++ [m]
    ∧ Some (mail_to m) = addr
    ∧ Some (email u) = addr
    ∧ confirm_token u = Some (token_urlsafe c)
    ∧ mail_body m
      = before +:+ url_for_confirm_email (token_urlsafe c) +:+ after.
Proof.
  intros (He & _ & _ & _ & _ & ->)%register_success Hu Hp ->.
  rewrite send_confirmation_email_db. unfold send_confirmation_email.
  rewrite send_email_delivered by done. cbn [db outbox with_db].
  eexists _, _, _, _. split_and!; try done; cbn; symmetry; by apply present_str.
Qed.

(** X7: an accepted SubmitContact, with both mail credentials set and the
    SMTP conversation going through, puts exactly one message in the
    outbox, addressed to the operator ([MAIL_USERNAME]), whose subject ends
    in the submitted subject and whose body carries the submitted name,
    address and message, in this order. *)
Theorem contact_mail_reaches_the_operator name addr subject message c w :
  outcome (contact name addr subject message c w).2 = Success →
  ¬ empty_field MAIL_USERNAME → ¬ empty_field MAIL_PASSWORD →
  smtp c = Delivered →
  ∃ m heading p1 p2 p3 p4 n a s t,
    outbox (contact name addr subject message c w).1 = outbox w ++ [m]
    ∧ name = Some n ∧ addr = Some a ∧ subject = Some s ∧ message = Some t
    ∧ Some (mail_to m) = MAIL_USERNAME
    ∧ mail_subject m = heading +:+ s
    ∧ mail_body m = p1 +:+ n +:+ p2 +:+ a +:+ p3 +:+ t +:+ p4.
Proof.
  intros Hok Hu Hp Ho. rewrite (contact_success _ _ _ _ _ _ Hok), Ho.
  unfold send_contact_email. rewrite send_email_delivered by done.
  revert Hok. unfold contact. destruct (_ || _) eqn:Hfields; [done|]. intros _.
  apply orb_false_iff in Hfields as [Hfields Hm%py_not_false].
  apply orb_false_iff in Hfields as [Hfields Hs%py_not_false].
  apply orb_false_iff in Hfields as [Hn%py_not_false Ha%py_not_false].
  eexists _, _, _, _, _, _, (str name), (str addr), (str subject), (str message).
  split_and!; try reflexivity; try by apply present_str.
  cbn. symmetry. by apply present_str.
Qed.

(** X6: SubmitContact with any of its four fields missing or empty
    answers ValidationError; with the four present and an address the
    validator rejects it answers InvalidEmail; a rejected submission leaves
    the world as it was (nothing sent, nothing logged); and no submission
    writes to the table or the session. *)
Theorem contact_rejections_change_nothing name addr subject message c w :
  (empty_field name ∨ empty_field addr ∨ empty_field subject
   ∨ empty_field message →
     outcome (contact name addr subject message c w).2
     = Failure ValidationError)
  ∧ (¬ empty_field name → ¬ empty_field addr → ¬ empty_field subject →
     ¬ empty_field message → validate_email (str addr) = false →
     outcome (contact name addr subject message c w).2 = Failure InvalidEmail)
  ∧ (∀ e, outcome (contact name addr subject message c w).2 = Failure e →
          (contact name addr subject message c w).1 = w)
  ∧ db (contact name addr subject message c w).1 = db w
  ∧ session (contact name addr subject message c w).1 = session w.
Proof.
  split_and!.
  - intros Hempty. unfold contact.
    assert (py_not name || py_not addr || py_not subject || py_not message = true)
      as ->; [|done].
    rewrite !orb_true_iff, !py_not_true. tauto.
  - intros Hn%py_not_false Ha%py_not_false Hs%py_not_false Hm%py_not_false Hv.
    unfold contact. by rewrite Hn, Ha, Hs, Hm, Hv.
  - intros e. apply contact_failure.
  - apply contact_db.
  - destruct (outcome (contact name addr subject message c w).2) as [|e] eqn:Hout.
    + rewrite (contact_success _ _ _ _ _ _ Hout). unfold send_contact_email.
      apply send_email_session.
    + by rewrite (contact_failure _ _ _ _ _ _ _ Hout).
Qed.

(** ** The whole path: register, confirm, log in *)

Lemma find_by_email_appended e rows u :
  (∀ v, v ∈ rows → email v ≠ e) → email u = e →
  find_by_email e (rows ++ [u]) = Some (length rows, u).
Proof.
  intros Hfree He. apply list_find_Some. split_and!; [|done|].
  - by rewrite lookup_app_r, Nat.sub_diag.
  - intros j v Hj Hlt. apply Hfree. rewrite lookup_app_l in Hj by lia.
    by eapply list_elem_of_lookup_2.
Qed.

Lemma find_by_token_appended t rows u :
  (∀ v, v ∈ rows → confirm_token v ≠ Some t) → confirm_token u = Some t →
  find_by_token t (rows ++ [u]) = Some (length rows, u).
Proof.
  intros Hfree Ht. apply list_find_Some. split_and!; [|done|].
  - by rewrite lookup_app_r, Nat.sub_diag.
  - intros j v Hj Hlt. apply Hfree. rewrite lookup_app_l in Hj by lia.
    by eapply list_elem_of_lookup_2.
Qed.

(** X11: the path of a new account.  After an accepted Register whose
    token no earlier row holds, and with a hasher that accepts the password
    it hashed, Login with the same address and password answers
    EmailNotConfirmed; ConfirmEmail with the drawn token succeeds; and Login
    then succeeds with the session holding the new account's id. *)
Theorem register_confirm_login name addr role password c w :
  outcome (register name addr role password password c w).2 = Success →
  (∀ v, v ∈ db w → confirm_token v ≠ Some (token_urlsafe c)) →
  check_password_hash
    (generate_password_hash (str password) (gensalt c)) (str password) = true →
  let w1 := (register name addr role password password c w).1 in
  let w2 := (confirm_email (token_urlsafe c) w1).1 in
  outcome (login addr password w1).2 = Failure EmailNotConfirmed
  ∧ outcome (confirm_email (token_urlsafe c) w1).2 = Success
  ∧ outcome (login addr password w2).2 = Success
  ∧ session (login addr password w2).1 = Some (next_id (db w)).
Proof.
  intros (He & Hp & _ & _ & Hfree & Hw1)%register_success Hfresh Hhash w1 w2.
  rewrite find_by_email_None in Hfree.
  set (u := new_row name addr role password c (db w)).
  assert (db w1 = db w ++ [u]) as Hdb1.
  { subst w1. by rewrite Hw1, send_confirmation_email_db. }
  assert (find_by_token (token_urlsafe c) (db w1) = Some (length (db w), u)) as Htok.
  { rewrite Hdb1. by apply find_by_token_appended. }
  assert (db w2 = db w ++ [mark_confirmed u]) as Hdb2.
  { subst w2. rewrite (confirm_email_found _ _ _ _ Htok). cbn [fst db with_db].
    rewrite Hdb1. rewrite insert_app_r_alt, Nat.sub_diag by lia. done. }
  split_and!.
  - rewrite login_present, Hdb1 by done.
    rewrite (find_by_email_appended (str addr) (db w) u) by done.
    cbn [password_hash is_confirmed u new_row]. by rewrite Hhash.
  - by rewrite (confirm_email_found _ _ _ _ Htok).
  - rewrite login_present, Hdb2 by done.
    rewrite (find_by_email_appended (str addr) (db w) (mark_confirmed u)) by done.
    cbn [password_hash is_confirmed mark_confirmed u new_row]. by rewrite Hhash.
  - rewrite login_present, Hdb2 by done.
    rewrite (find_by_email_appended (str addr) (db w) (mark_confirmed u)) by done.
    cbn [password_hash is_confirmed mark_confirmed u new_row]. by rewrite Hhash.
Qed.

(** X1: in a reachable world, the page after a successful Login shows the
    visitor as logged in under exactly the address they submitted; after
    Logout, in any world, it shows nobody; and a session whose id matches no
    row shows a logged-in visitor without an address. *)
Theorem index_follows_the_session w :
  (reachable w →
   ∀ addr password,
     outcome (login addr password w).2 = Success →
     index (login addr password w).1 = (true, addr))
  ∧ index (logout w).1 = (false, None)
  ∧ (∀ k, session w = Some k → (∀ u, u ∈ db w → id u ≠ k) →
          index w = (true, None)).
Proof.
  split_and!.
  - intros Hreach addr password
      (i & u & Hfind & He & _ & _ & _ & ->)%login_success.
    apply list_find_Some in Hfind as (Hi & Hu & _).
    unfold index. cbn [session db with_session].
    rewrite (get_unique (id u) _ i u (reachable_ids w Hreach) Hi eq_refl).
    by rewrite Hu, <- present_str.
  - done.
  - intros k Hk Hnone. unfold index, get. rewrite Hk.
    rewrite (proj2 (list_find_None _ _)); [done|]. by apply Forall_forall.
Qed.

(** X5: the session changes only through Logout, which empties it, or
    through a Login that succeeds: Register, ConfirmEmail and SubmitContact
    never log anybody in or out. *)
Theorem only_login_and_logout_touch_the_session r c w :
  session (handle r c w).1 ≠ session w →
  (r = Logout ∧ session (handle r c w).1 = None)
  ∨ (∃ addr password,
       r = Login addr password ∧ outcome (handle r c w).2 = Success).
Proof.
  intros Hchanged.
  destruct (handle_session r c w)
    as [Hsame|[[-> Hnone]|(addr & password & i & u & -> & _)]].
  - by destruct Hchanged.
  - by left.
  - right. exists addr, password. split; [done|]. cbn [handle] in *.
    destruct (outcome (login addr password w).2) as [|e] eqn:Hout; [done|].
    destruct Hchanged. by rewrite (login_failure _ _ _ _ Hout).
Qed.

(** X17: in a world reached with fresh token draws no two rows hold the
    same token, and looking a token up returns the row holding it. *)
Theorem find_by_token_returns_its_holder w i u token :
  reachable_fresh w → db w !! i = Some u → confirm_token u = Some token →
  find_by_token token (db w) = Some (i, u)
  ∧ ∀ j v, db w !! j = Some v → confirm_token v = Some token → j = i.
Proof.
  intros Hdist%reachable_fresh_tokens_distinct Hi Htok. split.
  - by apply find_by_token_unique.
  - intros j v Hj Hv. by eapply Hdist.
Qed.

(** ** Addresses are compared as they were typed *)

Lemma reachable_came_through_register w :
  reachable w → Forall came_through_register (db w).
Proof.
  induction 1 as [|w r c _ IH]; [constructor|].
  by apply handle_came_through_register.
Qed.

Lemma find_by_email_unique e (rows : list User) i u :
  NoDup (email <$> rows) → rows !! i = Some u → email u = e →
  find_by_email e rows = Some (i, u).
Proof.
  intros Hnd Hi He. apply list_find_Some. split_and!; [done..|].
  intros j v Hj Hlt Hv.
  assert (j = i); [|lia].
  eapply NoDup_lookup; [done|..]; rewrite list_lookup_fmap.
  - rewrite Hj. cbn. by rewrite Hv, <- He.
  - by rewrite Hi.
Qed.

(** The stored address of a reachable account, found again by the lookup. *)
Lemma stored_address_found w u :
  reachable w → u ∈ db w →
  ¬ empty_field (Some (email u)) ∧ validate_email (email u) = true
  ∧ ∃ i, find_by_email (email u) (db w) = Some (i, u).
Proof.
  intros Hreach Hin.
  pose proof (reachable_came_through_register w Hreach) as Hall.
  rewrite Forall_forall in Hall. destruct (Hall u Hin) as (Hne & Hvalid & _).
  split_and!; [intros [?|?]; congruence|done|].
  apply list_elem_of_lookup_1 in Hin as [i Hi]. exists i.
  by apply find_by_email_unique; [apply reachable_emails|..].
Qed.

(** C9: addresses are compared as raw strings, in both directions.  A
    lookup returns only a row whose stored address is the queried string,
    and it does return one whenever some row stores that string; in a
    reachable world it returns the very row that stores it.  Login for an
    address that no row stores character for character answers
    InvalidCredentials, a successful Login is for a row storing exactly the
    submitted string, and Login under the exact stored spelling reaches
    that account: its password and confirmation alone decide the answer.
    Register under the exact spelling of a stored address answers
    DuplicateAccount, while two registrations under different strings,
    such as two spellings that differ only in letter case, both succeed and
    leave two rows with different ids, each storing its address as
    submitted. *)
Theorem email_comparison_is_exact :
  (∀ e rows i u, find_by_email e rows = Some (i, u) → email u = e)
  ∧ (∀ addr password w,
       ¬ empty_field addr → ¬ empty_field password →
       (∀ u, u ∈ db w → Some (email u) ≠ addr) →
       outcome (login addr password w).2 = Failure InvalidCredentials)
  ∧ (∀ addr password w,
       outcome (login addr password w).2 = Success →
       ∃ u, u ∈ db w ∧ Some (email u) = addr
            ∧ session (login addr password w).1 = Some (id u))
  ∧ (∀ e1 e2 name1 role1 pw1 c1 name2 role2 pw2 c2 w,
       e1 ≠ e2 → e1 ≠ "" → e2 ≠ "" → pw1 ≠ "" → pw2 ≠ "" →
       validate_email e1 = true → validate_email e2 = true →
       (∀ u, u ∈ db w → email u ≠ e1 ∧ email u ≠ e2) →
       let w1 := (register name1 (Some e1) role1 (Some pw1) (Some pw1) c1 w).1 in
       let out := register name2 (Some e2) role2 (Some pw2) (Some pw2) c2 w1 in
       outcome out.2 = Success
       ∧ ∃ u1 u2, db out.1 = db w ++ [u1; u2]
                  ∧ email u1 = e1 ∧ email u2 = e2 ∧ id u1 ≠ id u2)
  ∧ (∀ e rows u,
       u ∈ rows → email u = e →
       ∃ i v, find_by_email e rows = Some (i, v) ∧ email v = e)
  ∧ (∀ w i u,
       reachable w → db w !! i = Some u →
       find_by_email (email u) (db w) = Some (i, u))
  ∧ (∀ name role password c w u,
       reachable w → u ∈ db w → ¬ empty_field password →
       outcome (register name (Some (email u)) role password password c w).2
       = Failure DuplicateAccount)
  ∧ (∀ password w u,
       reachable w → u ∈ db w → ¬ empty_field password →
       (check_password_hash (password_hash u) (str password) = false →
          outcome (login (Some (email u)) password w).2
          = Failure InvalidCredentials)
       ∧ (check_password_hash (password_hash u) (str password) = true →
          (is_confirmed u = false →
             outcome (login (Some (email u)) password w).2
             = Failure EmailNotConfirmed)
          ∧ (is_confirmed u = true →
             outcome (login (Some (email u)) password w).2 = Success
             ∧ session (login (Some (email u)) password w).1 = Some (id u)))).
Proof.
  split_and!.
  - by intros e rows i u (_ & He & _)%list_find_Some.
  - intros addr password w He Hp Habsent. rewrite login_present by done.
    by rewrite absent_not_found.
  - intros addr password w. unfold login.
    destruct (_ || _) eqn:Hfields; [done|].
    apply orb_false_iff in Hfields as [He%py_not_false _].
    destruct (find_by_email _ _) as [[i u]|] eqn:Hfind; [|done].
    destruct (negb _); [done|]. destruct (negb _); [done|]. intros _.
    apply list_find_Some in Hfind as (Hi & Hu & _).
    exists u. split_and!; [by eapply list_elem_of_lookup_2| |done].
    rewrite Hu. symmetry. by apply present_str.
  - intros e1 e2 name1 role1 pw1 c1 name2 role2 pw2 c2 w
      Hne He1 He2 Hp1 Hp2 Hv1 Hv2 Hfree w1 out. subst out w1.
    assert (∀ s, s ≠ "" → ¬ empty_field (Some s)) as Hpresent.
    { intros s Hs [?|?]; congruence. }
    rewrite (register_accepted name1 (Some e1)); [|by auto..|]; cycle 1.
    { intros u Hu [= Heq]. by destruct (Hfree u Hu). }
    cbn [fst].
    rewrite register_accepted; [|by auto..|]; cycle 1.
    { rewrite send_confirmation_email_db. cbn [db with_db]. intros u Hu [= Heq].
      apply elem_of_app in Hu as [Hu|Hu%list_elem_of_singleton].
      - by destruct (Hfree u Hu).
      - subst u. cbn in Heq. congruence. }
    cbn [fst snd]. rewrite !send_confirmation_email_db. cbn [db with_db].
    split; [done|].
    eexists _, _. rewrite <- app_assoc. cbn [app].
    split_and!; [done..|]. cbn [id new_row].
    pose proof (next_id_above
      (db w ++ [new_row name1 (Some e1) role1 (Some pw1) c1 (db w)])
      (new_row name1 (Some e1) role1 (Some pw1) c1 (db w))) as Hlt.
    cbn [id new_row] in Hlt.
    assert (next_id (db w) < next_id (db w ++
      [new_row name1 (Some e1) role1 (Some pw1) c1 (db w)])); [|lia].
    apply Hlt. apply elem_of_app. right. by apply list_elem_of_singleton.
  - intros e rows u Hin He.
    destruct (find_by_email e rows) as [[i v]|] eqn:Hfind.
    + exists i, v. split; [done|]. by apply list_find_Some in Hfind as (_ & Hv & _).
    + rewrite find_by_email_None in Hfind. by destruct (Hfind u Hin).
  - intros w i u Hreach Hi.
    by apply find_by_email_unique; [apply reachable_emails|..].
  - intros name role password c w u Hreach Hin Hp.
    destruct (stored_address_found w u Hreach Hin) as (He & Hvalid & i & Hfind).
    rewrite register_present by done.
    rewrite bool_decide_eq_false_2 by (intros H; by apply H).
    change (str (Some (email u))) with (email u). by rewrite Hvalid, Hfind.
  - intros password w u Hreach Hin Hp.
    destruct (stored_address_found w u Hreach Hin) as (He & _ & i & Hfind).
    rewrite login_present by done.
    change (str (Some (email u))) with (email u). rewrite Hfind.
    split; [by intros ->|]. intros ->. cbn [negb]. split; by intros ->.
Qed.

End Further.

(** * The theorems at work on the demo instance *)

Section Witnesses.

Local Existing Instance Demo.collaborators.

Lemma demo_registered_reachable : reachable Demo.registered.
Proof. apply reachable_step, reachable_init. Qed.

Lemma demo_confirmed_reachable : reachable Demo.confirmed.
Proof. apply reachable_step, demo_registered_reachable. Qed.

Lemma demo_tokens_distinct : tokens_distinct [Demo.alice; Demo.bob].
Proof.
  intros i j u v t Hi Hj Hu Hv.
  destruct i as [|[|i]], j as [|[|j]]; try done;
    cbn in Hi, Hj; simplify_eq; cbn in Hu, Hv; congruence.
Qed.

Lemma account_shape_invariant_witness :
  ((unconfirmed_shape Demo.alice ∨ confirmed_shape Demo.alice)
   ∧ ¬ (unconfirmed_shape Demo.alice ∧ confirmed_shape Demo.alice))
  ∧ ((unconfirmed_shape (mark_confirmed Demo.alice)
      ∨ confirmed_shape (mark_confirmed Demo.alice))
     ∧ ¬ (unconfirmed_shape (mark_confirmed Demo.alice)
          ∧ confirmed_shape (mark_confirmed Demo.alice))).
Proof.
  split.
  - apply (account_shape_invariant Demo.registered Demo.alice).
    + apply demo_registered_reachable.
    + vm_compute. constructor.
  - apply (account_shape_invariant Demo.confirmed (mark_confirmed Demo.alice)).
    + apply demo_confirmed_reachable.
    + vm_compute. constructor.
Defined.

Lemma register_checks_in_order_witness :
  outcome (register None (Some "") None (Some "a") (Some "b")
             (Demo.chance "t" Delivered) Demo.registered).2
  = Failure ValidationError
  ∧ outcome (register None (Some "not-an-email") None (Some "a") (Some "b")
               (Demo.chance "t" Delivered) Demo.registered).2
    = Failure PasswordMismatch
  ∧ outcome (register None (Some "not-an-email") None (Some "a") (Some "a")
               (Demo.chance "t" Delivered) Demo.registered).2
    = Failure InvalidEmail
  ∧ outcome (register None (Some "alice@example.com") None (Some "a") (Some "a")
               (Demo.chance "t" Delivered) Demo.registered).2
    = Failure DuplicateAccount
  ∧ outcome (register None (Some "bob@example.com") None (Some "hunter2")
               (Some "hunter2") (Demo.chance "tok-bob" Delivered)
               Demo.registered).2
    = Success.
Proof.
  split_and!.
  - apply (register_checks_in_order None (Some "") None (Some "a") (Some "b")).
    left. by right.
  - apply (register_checks_in_order None (Some "not-an-email") None (Some "a")
             (Some "b")); [present..|congruence].
  - apply (register_checks_in_order None (Some "not-an-email") None (Some "a")
             (Some "a")); [present..|reflexivity|reflexivity].
  - apply (register_checks_in_order None (Some "alice@example.com") None
             (Some "a") (Some "a")); [present..|reflexivity|reflexivity|].
    exists Demo.alice. split; [vm_compute; constructor|reflexivity].
  - apply (register_checks_in_order None (Some "bob@example.com") None
             (Some "hunter2") (Some "hunter2"));
      [present..|reflexivity|reflexivity|].
    intros u Hu. vm_compute in Hu. apply list_elem_of_singleton in Hu as ->.
    discriminate.
Defined.

Lemma register_error_keeps_store_witness :
  (register None (Some "alice@example.com") None (Some "x") (Some "x")
     (Demo.chance "tok-2" Delivered) Demo.registered).1 = Demo.registered
  ∧ ∃ u, accounts_for "alice@example.com"
           (db (register None (Some "alice@example.com") None (Some "x")
                  (Some "x") (Demo.chance "tok-2" Delivered)
                  Demo.registered).1) = [u].
Proof.
  destruct (register_error_keeps_store None (Some "alice@example.com") None
              (Some "x") (Some "x") (Demo.chance "tok-2" Delivered)
              Demo.registered DuplicateAccount) as [Hsame Hone];
    [reflexivity|].
  split; [exact Hsame|exact (Hone eq_refl demo_registered_reachable)].
Defined.

Lemma confirm_email_consumes_token_witness :
  outcome (confirm_email "never-issued" (Demo.world [Demo.alice; Demo.bob])).2
  = Failure InvalidOrExpiredToken
  ∧ outcome (confirm_email "tok-bob" (Demo.world [Demo.alice; Demo.bob])).2
    = Success
  ∧ outcome (confirm_email "tok-bob"
               (confirm_email "tok-bob"
                  (Demo.world [Demo.alice; Demo.bob])).1).2
    = Failure InvalidOrExpiredToken.
Proof.
  destruct (confirm_email_consumes_token "never-issued"
              (Demo.world [Demo.alice; Demo.bob])) as [Hnone _].
  destruct (confirm_email_consumes_token "tok-bob"
              (Demo.world [Demo.alice; Demo.bob])) as [_ Hheld].
  split.
  - apply Hnone. intros u Hu. cbn in Hu.
    apply elem_of_cons in Hu as [->|Hu%list_elem_of_singleton]; [discriminate|].
    subst u. discriminate.
  - destruct (Hheld 1%nat Demo.bob eq_refl eq_refl) as (Hok & Hthen).
    destruct (Hthen demo_tokens_distinct) as (_ & Hagain & _).
    split; [exact Hok|exact Hagain].
Defined.

Lemma login_hides_account_existence_witness :
  (login (Some "alice@example.com") (Some "guess") (Demo.world [])).2
  = (login (Some "alice@example.com") (Some "guess")
       (Demo.world [mark_confirmed Demo.alice])).2.
Proof.
  apply (login_hides_account_existence (Some "alice@example.com") (Some "guess")
           (Demo.world []) (Demo.world [mark_confirmed Demo.alice])
           0%nat (mark_confirmed Demo.alice)); [present|present| | |].
  - intros v Hv. cbn in Hv. by apply elem_of_nil in Hv.
  - reflexivity.
  - reflexivity.
Defined.

Lemma login_correct_password_witness :
  (outcome (login (Some "alice@example.com") (Some "secret")
              (Demo.world [Demo.alice])).2 = Failure EmailNotConfirmed
   ∧ (login (Some "alice@example.com") (Some "secret")
        (Demo.world [Demo.alice])).1 = Demo.world [Demo.alice])
  ∧ (outcome (login (Some "alice@example.com") (Some "secret")
                (Demo.world [mark_confirmed Demo.alice])).2 = Success
     ∧ session (login (Some "alice@example.com") (Some "secret")
                  (Demo.world [mark_confirmed Demo.alice])).1 = Some 1).
Proof.
  split.
  - apply (login_correct_password (Some "alice@example.com") (Some "secret")
             (Demo.world [Demo.alice]) 0%nat Demo.alice);
      [present|present|reflexivity..].
  - destruct (login_correct_password (Some "alice@example.com") (Some "secret")
                (Demo.world [mark_confirmed Demo.alice]) 0%nat
                (mark_confirmed Demo.alice)) as [_ Hok];
      [present|present|reflexivity..|].
    destruct (Hok eq_refl) as (H1 & H2 & _). split; [exact H1|exact H2].
Defined.

Lemma mail_failure_never_changes_result_witness :
  outcome (register None (Some "bob@example.com") None (Some "hunter2")
             (Some "hunter2") (mkChance "tok-bob" "salt" (Raised "timed out"))
             Demo.registered).2 = Success
  ∧ outcome (contact (Some "Bob") (Some "bob@example.com") (Some "Pricing")
               (Some "Hello") (mkChance "tok" "salt" (Raised "timed out"))
               Demo.registered).2 = Success.
Proof.
  split.
  - apply (mail_failure_never_changes_result "tok-bob" "salt"
             (Raised "timed out") Delivered Demo.registered);
      [present|present|reflexivity|].
    intros u Hu. vm_compute in Hu. apply list_elem_of_singleton in Hu as ->.
    discriminate.
  - apply (mail_failure_never_changes_result "tok" "salt"
             (Raised "timed out") Delivered Demo.registered);
      [present..|reflexivity].
Defined.

Lemma is_confirmed_never_reset_witness :
  is_confirmed Demo.alice = false
  ∧ ∃ u', db (run [(Demo.register_alice, Demo.chance "tok-3" Delivered);
                   (ConfirmEmail "tok-alice", Demo.chance "tok-4" Delivered);
                   (Login (Some "alice@example.com") (Some "secret"),
                    Demo.chance "tok-5" Delivered);
                   (Logout, Demo.chance "tok-6" Delivered)]
                Demo.confirmed) !! 0%nat = Some u'
          ∧ id u' = 1 ∧ is_confirmed u' = true.
Proof.
  split.
  - destruct (is_confirmed_never_reset [] init) as [Hnew _].
    exact (Hnew Demo.register_alice (Demo.chance "tok-alice" Delivered)
             0%nat Demo.alice eq_refl eq_refl).
  - destruct (is_confirmed_never_reset
                [(Demo.register_alice, Demo.chance "tok-3" Delivered);
                 (ConfirmEmail "tok-alice", Demo.chance "tok-4" Delivered);
                 (Login (Some "alice@example.com") (Some "secret"),
                  Demo.chance "tok-5" Delivered);
                 (Logout, Demo.chance "tok-6" Delivered)]
                Demo.confirmed) as [_ Hkept].
    exact (Hkept 0%nat (mark_confirmed Demo.alice) eq_refl eq_refl).
Defined.

Lemma confirm_email_frame_witness :
  ∃ i u u',
    db (Demo.world [Demo.alice; Demo.bob]) !! i = Some u
    ∧ db (confirm_email "tok-bob" (Demo.world [Demo.alice; Demo.bob])).1 !! i
      = Some u'
    ∧ email u' = email u
    ∧ ∀ j, j ≠ i →
        db (confirm_email "tok-bob" (Demo.world [Demo.alice; Demo.bob])).1 !! j
        = db (Demo.world [Demo.alice; Demo.bob]) !! j.
Proof.
  destruct (confirm_email_frame "tok-bob" (Demo.world [Demo.alice; Demo.bob])
              eq_refl)
    as (i & u & u' & _ & Hi & _ & Hi' & _ & _ & _ & Hmail & _ & _ & _ & _ & Hrest & _).
  exists i, u, u'. split_and!; [exact Hi|exact Hi'|exact Hmail|exact Hrest].
Defined.

(** Closes [¬ empty_field MAIL_USERNAME] and the like on the demo instance. *)
Ltac credentials := intros [?|?]; discriminate.

Lemma demo_logged_in_reachable :
  reachable (login (Some "alice@example.com") (Some "secret") Demo.confirmed).1.
Proof.
  apply (reachable_step Demo.confirmed
           (Login (Some "alice@example.com") (Some "secret"))
           (Demo.chance "tok-unused" Delivered)).
  apply demo_confirmed_reachable.
Qed.

Lemma demo_registered_fresh : reachable_fresh Demo.registered.
Proof.
  apply reachable_fresh_step; [apply reachable_fresh_init|].
  intros u Hu. cbn in Hu. by apply elem_of_nil in Hu.
Qed.

Lemma login_only_for_confirmed_accounts_witness :
  ∃ i u, db Demo.confirmed !! i = Some u
         ∧ Some (email u) = Some "alice@example.com"
         ∧ is_confirmed u = true
         ∧ session (login (Some "alice@example.com") (Some "secret")
                      Demo.confirmed).1 = Some (id u).
Proof.
  destruct (login_only_for_confirmed_accounts (Some "alice@example.com")
              (Some "secret") Demo.confirmed)
    as (i & u & Hi & He & _ & Hc & Hs); [reflexivity|].
  by exists i, u.
Defined.

Lemma login_rejections_change_nothing_witness :
  outcome (login (Some "alice@example.com") (Some "") Demo.confirmed).2
  = Failure ValidationError
  ∧ (login (Some "alice@example.com") (Some "wrong")
       (login (Some "alice@example.com") (Some "secret") Demo.confirmed).1).1
    = (login (Some "alice@example.com") (Some "secret") Demo.confirmed).1.
Proof.
  split.
  - apply (login_rejections_change_nothing (Some "alice@example.com") (Some "")
             Demo.confirmed). right. by right.
  - by apply (login_rejections_change_nothing (Some "alice@example.com")
                (Some "wrong")
                (login (Some "alice@example.com") (Some "secret")
                   Demo.confirmed).1)
         with InvalidCredentials.
Defined.

Lemma session_names_a_confirmed_account_witness :
  ∃ u, session (login (Some "alice@example.com") (Some "secret")
                  Demo.confirmed).1 = Some (id u)
       ∧ is_confirmed u = true
       ∧ index (login (Some "alice@example.com") (Some "secret")
                  Demo.confirmed).1 = (true, Some (email u)).
Proof.
  destruct (session_names_a_confirmed_account
              (login (Some "alice@example.com") (Some "secret")
                 Demo.confirmed).1 demo_logged_in_reachable)
    as [[Hnone _]|(u & _ & Hs & Hc & Hi)].
  - vm_compute in Hnone. discriminate.
  - by exists u.
Defined.

Lemma get_returns_the_row_of_its_id_witness :
  get 1 (db Demo.registered) = Some Demo.alice.
Proof.
  apply (get_returns_the_row_of_its_id Demo.registered 0%nat Demo.alice).
  - apply demo_registered_reachable.
  - reflexivity.
Defined.

Lemma find_by_email_returns_the_only_row_witness :
  find_by_email "alice@example.com" (db Demo.registered)
  = Some (0%nat, Demo.alice).
Proof.
  apply (find_by_email_returns_the_only_row Demo.registered 0%nat Demo.alice).
  - apply demo_registered_reachable.
  - reflexivity.
Defined.

Lemma stored_accounts_passed_the_checks_witness :
  email Demo.alice ≠ "" ∧ validate_email (email Demo.alice) = true
  ∧ ∃ password salt,
      password ≠ ""
      ∧ password_hash Demo.alice = generate_password_hash password salt.
Proof.
  apply (stored_accounts_passed_the_checks Demo.registered Demo.alice).
  - apply demo_registered_reachable.
  - vm_compute. constructor.
Defined.

Lemma rows_are_kept_witness :
  ∃ u', db (run [(ConfirmEmail "tok-alice", Demo.chance "t1" Delivered);
                 (Register None (Some "bob@example.com") None (Some "hunter2")
                    (Some "hunter2"), Demo.chance "tok-bob" Delivered);
                 (Logout, Demo.chance "t2" Delivered)]
              Demo.registered) !! 0%nat = Some u'
        ∧ id u' = 1 ∧ email u' = "alice@example.com"
        ∧ password_hash u' = "salt$secret"
        ∧ company_name u' = Some "ACME" ∧ role u' = Some "cto".
Proof.
  destruct (rows_are_kept
              [(ConfirmEmail "tok-alice", Demo.chance "t1" Delivered);
               (Register None (Some "bob@example.com") None (Some "hunter2")
                  (Some "hunter2"), Demo.chance "tok-bob" Delivered);
               (Logout, Demo.chance "t2" Delivered)]
              Demo.registered) as [_ Hrows].
  exact (Hrows 0%nat Demo.alice eq_refl).
Defined.

Lemma only_its_token_confirms_an_account_witness :
  ∃ token, ConfirmEmail "tok-alice" = ConfirmEmail token
           ∧ confirm_token Demo.alice = Some token.
Proof.
  apply (only_its_token_confirms_an_account (ConfirmEmail "tok-alice")
           (Demo.chance "t" Delivered) Demo.registered 0%nat Demo.alice
           (mark_confirmed Demo.alice)); reflexivity.
Defined.

Lemma no_credentials_no_mail_witness :
  outbox (run (env := Demo.unconfigured)
            [(Demo.register_alice, Demo.chance "tok-alice" Delivered);
             (SubmitContact (Some "Bob") (Some "bob@example.com")
                (Some "Pricing") (Some "Hello"), Demo.chance "t" Delivered)]
            init) = outbox init.
Proof.
  apply (@no_credentials_no_mail Demo.unconfigured). right. by left.
Defined.

Lemma confirmation_mail_links_the_stored_token_witness :
  ∃ u m before after,
    db Demo.registered = db init ++ [u]
    ∧ outbox Demo.registered = outbox init ++ [m]
    ∧ Some (mail_to m) = Some "alice@example.com"
    ∧ Some (email u) = Some "alice@example.com"
    ∧ confirm_token u = Some "tok-alice"
    ∧ mail_body m
      = before +:+ "http://localhost:5000/confirm/tok-alice" +:+ after.
Proof.
  destruct (confirmation_mail_links_the_stored_token (Some "ACME")
              (Some "alice@example.com") (Some "cto") (Some "secret")
              (Some "secret") (Demo.chance "tok-alice" Delivered) init)
    as (u & m & before & after & Hall);
    [reflexivity|credentials|credentials|reflexivity|].
  exists u, m, before, after. exact Hall.
Defined.

Lemma contact_mail_reaches_the_operator_witness :
  ∃ m, outbox (contact (Some "Bob") (Some "bob@example.com") (Some "Pricing")
                 (Some "Hello") (Demo.chance "t" Delivered) init).1
       = outbox init ++ [m]
       ∧ Some (mail_to m) = Some "operator@example.com".
Proof.
  destruct (contact_mail_reaches_the_operator (Some "Bob")
              (Some "bob@example.com") (Some "Pricing") (Some "Hello")
              (Demo.chance "t" Delivered) init)
    as (m & _ & _ & _ & _ & _ & _ & _ & _ & _ & Hout & _ & _ & _ & _ & Hto & _);
    [reflexivity|credentials|credentials|reflexivity|].
  by exists m.
Defined.

Lemma contact_rejections_change_nothing_witness :
  outcome (contact (Some "Bob") (Some "bob@example.com") (Some "")
             (Some "Hello") (Demo.chance "t" Delivered) Demo.registered).2
  = Failure ValidationError
  ∧ outcome (contact (Some "Bob") (Some "not-an-email") (Some "Pricing")
               (Some "Hello") (Demo.chance "t" Delivered) Demo.registered).2
    = Failure InvalidEmail
  ∧ (contact (Some "Bob") (Some "not-an-email") (Some "Pricing")
       (Some "Hello") (Demo.chance "t" Delivered) Demo.registered).1
    = Demo.registered.
Proof.
  split_and!.
  - apply (contact_rejections_change_nothing (Some "Bob")
             (Some "bob@example.com") (Some "") (Some "Hello")).
    right; right; left. by right.
  - apply (contact_rejections_change_nothing (Some "Bob")
             (Some "not-an-email") (Some "Pricing") (Some "Hello"));
      [present..|reflexivity].
  - by apply (contact_rejections_change_nothing (Some "Bob")
                (Some "not-an-email") (Some "Pricing") (Some "Hello")
                (Demo.chance "t" Delivered) Demo.registered)
         with InvalidEmail.
Defined.

Lemma register_confirm_login_witness :
  outcome (login (Some "alice@example.com") (Some "secret") Demo.registered).2
  = Failure EmailNotConfirmed
  ∧ outcome (confirm_email "tok-alice" Demo.registered).2 = Success
  ∧ outcome (login (Some "alice@example.com") (Some "secret") Demo.confirmed).2
    = Success
  ∧ session (login (Some "alice@example.com") (Some "secret")
               Demo.confirmed).1 = Some 1.
Proof.
  apply (register_confirm_login (Some "ACME") (Some "alice@example.com")
           (Some "cto") (Some "secret") (Demo.chance "tok-alice" Delivered)
           init); [reflexivity| |reflexivity].
  intros v Hv. cbn in Hv. by apply elem_of_nil in Hv.
Defined.

Lemma index_follows_the_session_witness :
  index (login (Some "alice@example.com") (Some "secret") Demo.confirmed).1
  = (true, Some "alice@example.com")
  ∧ index (logout (login (Some "alice@example.com") (Some "secret")
                     Demo.confirmed).1).1 = (false, None).
Proof.
  split.
  - by apply (index_follows_the_session Demo.confirmed);
      [apply demo_confirmed_reachable|].
  - apply (index_follows_the_session
             (login (Some "alice@example.com") (Some "secret")
                Demo.confirmed).1).
Defined.

Lemma only_login_and_logout_touch_the_session_witness :
  (Login (Some "alice@example.com") (Some "secret") = Logout
   ∧ session (handle (Login (Some "alice@example.com") (Some "secret"))
                (Demo.chance "t" Delivered) Demo.confirmed).1 = None)
  ∨ (∃ addr password,
       Login (Some "alice@example.com") (Some "secret") = Login addr password
       ∧ outcome (handle (Login (Some "alice@example.com") (Some "secret"))
                    (Demo.chance "t" Delivered) Demo.confirmed).2 = Success).
Proof.
  apply (only_login_and_logout_touch_the_session
           (Login (Some "alice@example.com") (Some "secret"))
           (Demo.chance "t" Delivered) Demo.confirmed).
  vm_compute. discriminate.
Defined.

Lemma find_by_token_returns_its_holder_witness :
  find_by_token "tok-alice" (db Demo.registered) = Some (0%nat, Demo.alice).
Proof.
  apply (find_by_token_returns_its_holder Demo.registered 0%nat Demo.alice
           "tok-alice"); [apply demo_registered_fresh|reflexivity..].
Defined.

Lemma email_comparison_is_exact_witness :
  lower "Alice@Example.com" = lower "alice@example.com"
  ∧ outcome (register None (Some "Alice@Example.com") None (Some "pw") (Some "pw")
               (Demo.chance "tok-A" Delivered) Demo.registered).2 = Success
  ∧ outcome (login (Some "Alice@Example.com") (Some "secret")
               Demo.confirmed).2 = Failure InvalidCredentials
  ∧ outcome (register None (Some "alice@example.com") None (Some "pw") (Some "pw")
               (Demo.chance "tok-B" Delivered) Demo.registered).2
    = Failure DuplicateAccount
  ∧ outcome (login (Some "alice@example.com") (Some "secret")
               Demo.confirmed).2 = Success
  ∧ find_by_email "alice@example.com" (db Demo.confirmed)
    = Some (0%nat, mark_confirmed Demo.alice).
Proof.
  destruct email_comparison_is_exact
    as (_ & Hlogin & _ & Htwo & _ & Hfound & Hdup & Hexact).
  split; [reflexivity|]. split_and!.
  - apply (Htwo "alice@example.com" "Alice@Example.com" (Some "ACME")
             (Some "cto") "secret" (Demo.chance "tok-alice" Delivered)
             None None "pw" (Demo.chance "tok-A" Delivered) init);
      [congruence..|reflexivity|reflexivity|].
    intros u Hu. cbn in Hu. by apply elem_of_nil in Hu.
  - apply Hlogin; [present|present|].
    intros u Hu. vm_compute in Hu. apply list_elem_of_singleton in Hu as ->.
    discriminate.
  - apply (Hdup None None (Some "pw") (Demo.chance "tok-B" Delivered)
             Demo.registered Demo.alice);
      [apply demo_registered_reachable|vm_compute; constructor|present].
  - apply (Hexact (Some "secret") Demo.confirmed (mark_confirmed Demo.alice));
      [apply demo_confirmed_reachable|vm_compute; constructor|present
      |reflexivity|reflexivity].
  - apply (Hfound Demo.confirmed 0%nat (mark_confirmed Demo.alice));
      [apply demo_confirmed_reachable|reflexivity].
Defined.

End Witnesses.
